(** * ReactXO: the game-state engine of src/App.jsx

    A shallow embedding of the state-holding part of the [App] component
    (history of boards, current move, score counters), of the click handler
    of [GameScreen], and of the win evaluator ([calculateWinner] and
    [generateWinningLines]), followed by the properties of the
    specification that concern them.

    Conventions of the embedding.
    - JavaScript numbers that the program uses are integers (indices, sizes,
      counters); they are modelled by [Z].  All arithmetic of the program on
      them is exact below 2^53.
    - A JavaScript array of cells is an object: a [length] and a finite map
      from integer keys to values.  Keys in [0, length) are its elements, an
      absent key is a hole and reads as [undefined]; keys that are not array
      indices (negative ones) are ordinary properties.
    - Reading [a[i]] yields [option cell]: [None] is [undefined].
    - Exceptions are results [Throw e]. *)

From stdpp Require Import gmap list strings pretty.
From Stdlib Require Import ZArith Lia.

Local Open Scope Z_scope.

(** ** Exceptions *)

Inductive exn := RangeError | TypeError.

Inductive result (A : Type) :=
  | Ok (a : A)
  | Throw (e : exn).
Arguments Ok {A} a.
Arguments Throw {A} e.

(** The sequencing of statements that may throw; with it [result] gets the
    notation [x ← r; k] of stdpp's monads. *)
Global Instance result_ret : MRet result := λ A a, Ok a.

Global Instance result_bind : MBind result := λ A B k r,
  match r with
  | Ok a => k a
  | Throw e => Throw e
  end.

(** ** Loops and dense arrays *)

(** The values taken by [k] in [for (let k = 0; k < n; k++)]. *)
Definition range (n : Z) : list Z := Z.of_nat <$> seq 0 (Z.to_nat n).

(** [for (let k = 0; k < n; k++) acc = body(acc, k)]. *)
Definition for_range {A} (n : Z) (body : A → Z → A) (acc : A) : A :=
  fold_left body (range n) acc.

(** [a.push(x)] on a dense array. *)
Definition push {A} (a : list A) (x : A) : list A := a ++ [x].

(** [a[i]] on a dense array: [undefined] out of range. *)
Definition js_nth {A} (a : list A) (i : Z) : option A :=
  if 0 <=? i then a !! Z.to_nat i else None.

(** [a.slice(0, e)] on a dense array: a negative [e] counts from the end. *)
Definition js_slice0 {A} (a : list A) (e : Z) : list A :=
  let len := Z.of_nat (length a) in
  let final := if e <? 0 then Z.max (len + e) 0 else Z.min e len in
  take (Z.to_nat final) a.

(** ** Cells and boards *)

(** The strings ["X"] and ["O"]. *)
Inductive mark := X | O.

(** What a square holds: [null] or a mark. *)
Inductive cell := null | filled (m : mark).

Global Instance mark_eq_dec : EqDecision mark.
Proof. solve_decision. Defined.

Global Instance cell_eq_dec : EqDecision cell.
Proof. solve_decision. Defined.

Definition mark_str (m : mark) : string :=
  match m with X => "X" | O => "O" end.

(** A JavaScript array of cells. *)
Record jsarray := JsArray {
  arr_length : Z;
  arr_props : gmap Z cell
}.

Global Instance jsarray_eq_dec : EqDecision jsarray.
Proof. solve_decision. Defined.

(** An integer key is an array index when it is in [0, 2^32 - 1). *)
Definition is_array_index (i : Z) : bool := (0 <=? i) && (i <? 4294967295).

(** [a[i]]. *)
Definition arr_get (a : jsarray) (i : Z) : option cell := arr_props a !! i.

(** [a[i] = v]: writing at an index at or past the end extends the array
    (the cells in between are holes); a key that is not an array index
    becomes a property and leaves the length alone. *)
Definition arr_set (a : jsarray) (i : Z) (v : cell) : jsarray :=
  {| arr_length :=
       if is_array_index i then Z.max (arr_length a) (i + 1) else arr_length a;
     arr_props := <[i := v]> (arr_props a) |}.

(** [a.slice()]: a new array with the elements of [a]; holes stay holes and
    properties that are not elements are not copied. *)
Definition arr_slice (a : jsarray) : jsarray :=
  {| arr_length := arr_length a;
     arr_props :=
       filter (λ kv : Z * cell, 0 ≤ kv.1 < arr_length a) (arr_props a) |}.

(** [a.every(f)]: the callback is not invoked on holes. *)
Definition arr_every (f : cell → bool) (a : jsarray) : bool :=
  forallb (λ k, match arr_get a k with Some v => f v | None => true end)
          (range (arr_length a)).

(** [Array(n).fill(null)]; [Array(n)] throws unless [0 <= n <= 2^32 - 1]. *)
Definition Array_fill_null (n : Z) : result jsarray :=
  if (0 <=? n) && (n <=? 4294967295) then
    Ok {| arr_length := n;
          arr_props := for_range n (λ m k, <[k := null]> m) ∅ |}
  else Throw RangeError.

(** Truthiness of [a[i]]: [undefined] and [null] are falsy, the strings
    ["X"] and ["O"] are truthy. *)
Definition truthy (v : option cell) : bool :=
  match v with
  | Some (filled _) => true
  | _ => false
  end.

(** ** Win evaluator *)

Definition generateWinningLines (N : Z) : list (list Z) :=
  let lines := [] in
  (* Rows *)
  let lines :=
    for_range N (λ lines r,
      let row := for_range N (λ row c, push row (r * N + c)) [] in
      push lines row) lines in
  (* Columns *)
  let lines :=
    for_range N (λ lines c,
      let col := for_range N (λ col r, push col (r * N + c)) [] in
      push lines col) lines in
  (* Main diagonal *)
  let diag1 := for_range N (λ diag1 i, push diag1 (i * N + i)) [] in
  let lines := push lines diag1 in
  (* Anti-diagonal *)
  let diag2 := for_range N (λ diag2 i, push diag2 (i * N + (N - 1 - i))) [] in
  let lines := push lines diag2 in
  lines.

Record winnerInfo := WinnerInfo {
  player : mark;
  line : list Z
}.

Global Instance winnerInfo_eq_dec : EqDecision winnerInfo.
Proof. solve_decision. Defined.

(** The test of one line in [calculateWinner]:
    [squares[first] && line.every(idx => squares[idx] === squares[first])]
    with [first = line[0]]; it yields the mark [squares[first]] when the
    test passes.  For an empty line [first] is [undefined] and so is
    [squares[first]]. *)
Definition lineWinner (squares : jsarray) (line : list Z) : option mark :=
  let first := head line in
  let sq_first := first ≫= arr_get squares in
  match sq_first with
  | Some (filled p) =>
      if forallb (λ idx, bool_decide (arr_get squares idx = sq_first)) line
      then Some p else None
  | _ => None
  end.

(** The loop [for (let line of lines)] with its early [return]. *)
Fixpoint scanLines (squares : jsarray) (lines : list (list Z))
  : option winnerInfo :=
  match lines with
  | [] => None
  | line :: rest =>
      match lineWinner squares line with
      | Some p => Some {| player := p; line := line |}
      | None => scanLines squares rest
      end
  end.

Definition calculateWinner (squares : option jsarray) (N : Z)
  : option winnerInfo :=
  match squares with
  | None => None
  | Some squares => scanLines squares (generateWinningLines N)
  end.

(** ** The state of [App] *)

Inductive screen_name := menu | game.

Global Instance screen_name_eq_dec : EqDecision screen_name.
Proof. solve_decision. Defined.

(** The six [useState] cells of [App]. *)
Record state := State {
  screen : screen_name;
  boardSize : Z;
  history : list jsarray;
  currentMove : Z;
  scoreX : Z;
  scoreO : Z
}.

Global Instance state_eq_dec : EqDecision state.
Proof. solve_decision. Defined.

(** [currentMove % 2 === 0]; [%] is the remainder that takes the sign of
    the dividend. *)
Definition xIsNext (s : state) : bool := Z.rem (currentMove s) 2 =? 0.

(** [history[currentMove]]. *)
Definition currentSquares (s : state) : option jsarray :=
  js_nth (history s) (currentMove s).

(** The state of the first render: the initial values of the [useState]
    cells, with [boardSize = 3]. *)
Definition initial : result state :=
  board ← Array_fill_null (3 * 3);
  mret {| screen := menu; boardSize := 3; history := [board];
          currentMove := 0; scoreX := 0; scoreO := 0 |}.

(** The radio buttons of the menu call [setBoardSize(3)] and
    [setBoardSize(5)]. *)
Definition setBoardSize (n : Z) (s : state) : state :=
  {| screen := screen s; boardSize := n; history := history s;
     currentMove := currentMove s; scoreX := scoreX s; scoreO := scoreO s |}.

Definition handleStart (s : state) : result state :=
  board ← Array_fill_null (boardSize s * boardSize s);
  mret {| screen := game; boardSize := boardSize s; history := [board];
          currentMove := 0; scoreX := scoreX s; scoreO := scoreO s |}.

Definition handlePlay (nextSquares : jsarray) (s : state) : state :=
  let nextHistory :=
    js_slice0 (history s) (currentMove s + 1) ++ [nextSquares] in
  let winnerInfo := calculateWinner (Some nextSquares) (boardSize s) in
  {| screen := screen s;
     boardSize := boardSize s;
     history := nextHistory;
     currentMove := Z.of_nat (length nextHistory) - 1;
     scoreX :=
       match winnerInfo with
       | Some w => if decide (player w = X) then scoreX s + 1 else scoreX s
       | None => scoreX s
       end;
     scoreO :=
       match winnerInfo with
       | Some w => if decide (player w = X) then scoreO s else scoreO s + 1
       | None => scoreO s
       end |}.

Definition jumpTo (move : Z) (s : state) : state :=
  {| screen := screen s; boardSize := boardSize s; history := history s;
     currentMove := move; scoreX := scoreX s; scoreO := scoreO s |}.

Definition restartGame (s : state) : result state :=
  board ← Array_fill_null (boardSize s * boardSize s);
  mret {| screen := screen s; boardSize := boardSize s; history := [board];
          currentMove := 0; scoreX := scoreX s; scoreO := scoreO s |}.

(** ** [GameScreen] *)

(** The status line. *)
Definition statusText (winnerInfo : option winnerInfo) (squares : jsarray)
    (xIsNext : bool) : string :=
  match winnerInfo with
  | Some w => "Winner: " +:+ mark_str (player w)
  | None =>
      if arr_every (λ val, bool_decide (val ≠ null)) squares
      then "Draw!"
      else "Next: " +:+ (if xIsNext then "X" else "O")
  end.

(** The click handler of a rendered [GameScreen]; [onPlay] is the callback
    it got from [App], and a plain [return] leaves the state as it is. *)
Definition handleClick (winnerInfo : option winnerInfo) (squares : jsarray)
    (xIsNext : bool) (onPlay : jsarray → state → state) (i : Z)
  : state → state :=
  if bool_decide (is_Some winnerInfo) || truthy (arr_get squares i) then id
  else
    let nextSquares := arr_slice squares in
    let nextSquares := arr_set nextSquares i (filled (if xIsNext then X else O)) in
    onPlay nextSquares.

(** What a render of [GameScreen] provides to the core's caller. *)
Record view := View {
  view_status : string;
  view_handleClick : Z → state → state
}.

(** A render of [GameScreen] with the props [App] passes.  When [squares]
    is [undefined], [calculateWinner] returns [null] and the evaluation of
    [squares.every] throws a [TypeError]: nothing is rendered and no handler
    exists. *)
Definition GameScreen (s : state) : result view :=
  match currentSquares s with
  | None => Throw TypeError
  | Some squares =>
      let winnerInfo := calculateWinner (Some squares) (boardSize s) in
      Ok {| view_status := statusText winnerInfo squares (xIsNext s);
            view_handleClick :=
              handleClick winnerInfo squares (xIsNext s) handlePlay |}
  end.

(** The operations of the core as the specification names them: the
    status line and the click handler of the render of the current state.
    ([App] shows [GameScreen] on the game screen only; [step] below asks
    for it.) *)
Definition status (s : state) : result string :=
  v ← GameScreen s; mret (view_status v).

Definition play (cellIndex : Z) (s : state) : result state :=
  v ← GameScreen s; mret (view_handleClick v cellIndex s).

(** ** Sessions *)

(** What a user can do: the menu offers the two sizes and the start button,
    the game screen offers the squares, the history buttons and the restart
    button.  The indices are left free: the core does not depend on the
    buttons that exist. *)
Inductive event :=
  | SelectSize (five : bool)
  | Start
  | Click (i : Z)
  | Jump (move : Z)
  | Restart.

(** One event on a mounted application.  An event of the game screen needs
    a render of [GameScreen] that did not throw. *)
Inductive step : state → event → state → Prop :=
  | step_select s five :
      screen s = menu →
      step s (SelectSize five) (setBoardSize (if five then 5 else 3) s)
  | step_start s s' :
      screen s = menu → handleStart s = Ok s' → step s Start s'
  | step_click s i s' :
      screen s = game → play i s = Ok s' → step s (Click i) s'
  | step_jump s v move :
      screen s = game → GameScreen s = Ok v →
      step s (Jump move) (jumpTo move s)
  | step_restart s v s' :
      screen s = game → GameScreen s = Ok v → restartGame s = Ok s' →
      step s Restart s'.

Inductive reachable : state → Prop :=
  | reachable_initial s : initial = Ok s → reachable s
  | reachable_step s e s' : reachable s → step s e s' → reachable s'.

(** The events that the rendered page offers: a square for each index
    [r * boardSize + c] of the grid and a button for each snapshot of the
    history. *)
Definition offered (s : state) (e : event) : Prop :=
  match e with
  | Click i => 0 ≤ i < boardSize s * boardSize s
  | Jump move => 0 ≤ move < Z.of_nat (length (history s))
  | _ => True
  end.

(** The states of the sessions driven through the page. *)
Inductive session : state → Prop :=
  | session_initial s : initial = Ok s → session s
  | session_step s e s' :
      session s → offered s e → step s e s' → session s'.

(** ** Boards of the specification *)

(** A board for grid size [N] as the data model of the specification has
    it: [N * N] elements, none missing, and no other property. *)
Definition board_wf (N : Z) (b : jsarray) : Prop :=
  arr_length b = N * N ∧ ∀ k, is_Some (arr_get b k) ↔ 0 ≤ k < N * N.

(** The state invariant of those sessions: a supported grid size, a
    history that is not empty and, on the game screen, a current move
    within a history of boards of that size. *)
Definition state_wf (s : state) : Prop :=
  (boardSize s = 3 ∨ boardSize s = 5) ∧
  history s ≠ [] ∧
  (screen s = game →
   0 ≤ currentMove s < Z.of_nat (length (history s)) ∧
   ∀ b, b ∈ history s → board_wf (boardSize s) b).

(** An array without holes among its elements. *)
Definition dense (b : jsarray) : Prop :=
  ∀ k, 0 ≤ k < arr_length b → is_Some (arr_get b k).

(** The same as a test. *)
Definition denseb (b : jsarray) : bool :=
  forallb (λ k, bool_decide (is_Some (arr_get b k))) (range (arr_length b)).

(** A cell is empty when it does not hold a mark. *)
Definition isEmpty (b : jsarray) (k : Z) : Prop := truthy (arr_get b k) = false.

(** A line is complete for [p] on [b]: its first cell holds the mark [p]
    and all its cells hold what the first one holds. *)
Definition completeLine (b : jsarray) (l : list Z) (p : mark) : Prop :=
  ∃ first, head l = Some first ∧ arr_get b first = Some (filled p) ∧
           ∀ idx, idx ∈ l → arr_get b idx = arr_get b first.

(** The cell [c] of line [a] in a list of lines. *)
Definition entry (lines : list (list Z)) (a c : Z) : option Z :=
  l ← js_nth lines a; js_nth l c.

(** The lines of the specification, in its enumeration order. *)
Definition rowLine (N r : Z) : list Z := (λ c, r * N + c) <$> range N.
Definition colLine (N c : Z) : list Z := (λ r, r * N + c) <$> range N.
Definition mainDiagonal (N : Z) : list Z := (λ i, i * N + i) <$> range N.
Definition antiDiagonal (N : Z) : list Z :=
  (λ i, i * N + (N - 1 - i)) <$> range N.

Definition specLines (N : Z) : list (list Z) :=
  (rowLine N <$> range N) ++ (colLine N <$> range N)
  ++ [mainDiagonal N; antiDiagonal N].

(** ** Sample states *)

Definition board_of (l : list cell) : jsarray :=
  {| arr_length := Z.of_nat (length l);
     arr_props := list_to_map (zip (range (Z.of_nat (length l))) l) |}.

(** The menu as it first shows. *)
Definition menu3 : state :=
  {| screen := menu; boardSize := 3;
     history := [board_of (replicate 9 null)];
     currentMove := 0; scoreX := 0; scoreO := 0 |}.

(** A game on the 3 by 3 grid that has just been started. *)
Definition started3 : state :=
  {| screen := game; boardSize := 3;
     history := [board_of (replicate 9 null)];
     currentMove := 0; scoreX := 0; scoreO := 0 |}.

(** The game after the moves 0, 4, 1, 5: a history of length 5. *)
Definition moves0415 : state :=
  let x := filled X in
  let o := filled O in
  let e := null in
  {| screen := game; boardSize := 3;
     history := [ board_of [e; e; e; e; e; e; e; e; e];
                  board_of [x; e; e; e; e; e; e; e; e];
                  board_of [x; e; e; e; o; e; e; e; e];
                  board_of [x; x; e; e; o; e; e; e; e];
                  board_of [x; x; e; e; o; o; e; e; e] ];
     currentMove := 4; scoreX := 0; scoreO := 0 |}.

(** The game after the moves 0, 4, 1, 5, 2: X has completed row 0. *)
Definition wonByX : state :=
  let x := filled X in
  let o := filled O in
  let e := null in
  {| screen := game; boardSize := 3;
     history := history moves0415 ++ [board_of [x; x; x; e; o; o; e; e; e]];
     currentMove := 5; scoreX := 1; scoreO := 0 |}.

(** A game played to the end with no complete line: the moves
    0, 1, 2, 4, 3, 5, 7, 6, 8 in turn. *)
Definition drawMoves : list Z := [0; 1; 2; 4; 3; 5; 7; 6; 8].

Definition playAll (moves : list Z) (s : state) : result state :=
  foldl (λ r i, r ≫= play i) (Ok s) moves.

(** The game after the moves 0, 4: a history of length 3. *)
Definition moves04 : state :=
  {| screen := game; boardSize := 3;
     history := take 3 (history moves0415);
     currentMove := 2; scoreX := 0; scoreO := 0 |}.

(** ** The components under [App] and [GameScreen] *)

(** The two radio buttons of [StartMenu]: which ones are checked. *)
Record startMenu := StartMenuView {
  checked3 : bool;
  checked5 : bool
}.

Definition StartMenu (boardSize : Z) : startMenu :=
  {| checked3 := boardSize =? 3; checked5 := boardSize =? 5 |}.

(** The props that [Board] gives to one [Square]; [sq_click] is the index
    that its [onClick] passes on.  [Square] only tests [isWinning] and
    [winnerLetter], which are kept as their truth values. *)
Record square := SquareProps {
  sq_key : Z;
  sq_value : option cell;
  sq_click : Z;
  sq_isWinning : bool;
  sq_winnerLetter : bool
}.

(** The rows of squares that [Board] builds. *)
Definition Board (boardSize : Z) (squares : jsarray)
    (winnerInfo : option winnerInfo) : list (list square) :=
  let winningLine :=
    match winnerInfo with Some w => line w | None => [] end in
  let rows := [] in
  for_range boardSize (λ rows r,
    let cells := [] in
    let cells :=
      for_range boardSize (λ cells c,
        let idx := r * boardSize + c in
        let isWinningSquare := bool_decide (idx ∈ winningLine) in
        push cells
          {| sq_key := idx;
             sq_value := arr_get squares idx;
             sq_click := idx;
             sq_isWinning := isWinningSquare;
             sq_winnerLetter :=
               match winnerInfo with
               | Some w =>
                   bool_decide (arr_get squares idx = Some (filled (player w)))
               | None => false
               end |}) cells in
    push rows cells) rows.

(** The props of the square of cell [idx], written apart from the loops
    (for the statements about [Board]). *)
Definition squareAt (squares : jsarray) (winnerInfo : option winnerInfo)
    (idx : Z) : square :=
  {| sq_key := idx;
     sq_value := arr_get squares idx;
     sq_click := idx;
     sq_isWinning :=
       bool_decide
         (idx ∈ match winnerInfo with Some w => line w | None => [] end);
     sq_winnerLetter :=
       match winnerInfo with
       | Some w => bool_decide (arr_get squares idx = Some (filled (player w)))
       | None => false
       end |}.

(** The cells between which [WinnerLine] draws: its constants [row1],
    [col1], [row2], [col2], from [first = line[0]] and
    [last = line[line.length - 1]]; [Math.floor(first / boardSize)] is the
    floor of the quotient and [%] the remainder with the sign of the
    dividend.  There is no result when the line is empty ([first] is
    [undefined]).  The pixel coordinates, the length and the angle that the
    component derives from these four are floating point and are not part
    of the embedding. *)
Definition winnerLineCells (boardSize : Z) (line : list Z)
  : option (Z * Z * Z * Z) :=
  first ← js_nth line 0;
  last ← js_nth line (Z.of_nat (length line) - 1);
  let row1 := first `div` boardSize in
  let col1 := Z.rem first boardSize in
  let row2 := last `div` boardSize in
  let col2 := Z.rem last boardSize in
  Some (row1, col1, row2, col2).

(** A button of the move history: its label and the move that its
    [onClick] passes to [jumpTo]. *)
Record button := Button {
  btn_label : string;
  btn_move : Z
}.

(** The buttons that [Controls] builds with [history.map]. *)
Definition Controls (history : list jsarray) : list button :=
  imap (λ move _,
          {| btn_label :=
               if decide (move = 0%nat) then "Start" else "#" +:+ pretty move;
             btn_move := Z.of_nat move |}) history.

(** ** Sequences of operations *)

(** Any number of events. *)
Definition steps : state → state → Prop :=
  rtc (λ s s', ∃ e, step s e s').

(** [n] times: jump to [move], then play [cellIndex]. *)
Fixpoint replay (n : nat) (move cellIndex : Z) (s : state) : result state :=
  match n with
  | 0%nat => Ok s
  | S n => s ← replay n move cellIndex s; play cellIndex (jumpTo move s)
  end.

(** ** Histories of the specification *)

(** The indices of the cells of a board that hold a mark. *)
Definition marks (b : jsarray) : list Z :=
  List.filter (λ k, truthy (arr_get b k)) (range (arr_length b)).

(** The indices of the cells of a board that hold the mark [p]. *)
Definition marksOf (p : mark) (b : jsarray) : list Z :=
  List.filter (λ k, bool_decide (arr_get b k = Some (filled p)))
              (range (arr_length b)).

(** [b'] is [b] after move number [k] (counted from 0): one cell that held
    [null] holds the mark of the player of that move, X for an even [k],
    and nothing else differs. *)
Definition oneMove (N : Z) (k : nat) (b b' : jsarray) : Prop :=
  ∃ i, 0 ≤ i < N * N ∧
       arr_get b i = Some null ∧
       arr_get b' i = Some (filled (if Nat.even k then X else O)) ∧
       ∀ j, j ≠ i → arr_get b' j = arr_get b j.

(** A history starts with the empty board and goes on move by move. *)
Definition history_chain (N : Z) (h : list jsarray) : Prop :=
  (∃ b0, h !! 0%nat = Some b0 ∧ ∀ k, 0 ≤ k < N * N → arr_get b0 k = Some null) ∧
  ∀ k b b', h !! k = Some b → h !! S k = Some b' → oneMove N k b b'.

(** * Properties *)

(** Closes [¬ (a ≤ i < b)] on numerals whose upper bound fails. *)
Ltac refute_range := vm_compute; intros [_ Hlt]; discriminate.

(** ** Loops *)

Section Loops.
Context {A : Type}.

Lemma range_length n : length (range n) = Z.to_nat n.
Proof. unfold range. by rewrite length_fmap, length_seq. Qed.

Lemma range_elem n k : k ∈ range n ↔ 0 ≤ k < n.
Proof.
  unfold range. rewrite list_elem_of_fmap. split.
  - intros (j & -> & Hj). apply elem_of_seq in Hj. lia.
  - intros Hk. exists (Z.to_nat k). split; [lia|]. apply elem_of_seq. lia.
Qed.

Lemma range_lookup n k : 0 ≤ k < n → js_nth (range n) k = Some k.
Proof.
  intros Hk. unfold js_nth, range.
  destruct (Z.leb_spec 0 k) as [_|]; [|lia].
  rewrite list_lookup_fmap, lookup_seq_lt by lia.
  simpl. f_equal. lia.
Qed.

Lemma js_nth_fmap {B} (f : A → B) (l : list A) k :
  js_nth (f <$> l) k = f <$> js_nth l k.
Proof. unfold js_nth. destruct (0 <=? k); [apply list_lookup_fmap|done]. Qed.

Lemma js_nth_app_l (l1 l2 : list A) k :
  k < Z.of_nat (length l1) → js_nth (l1 ++ l2) k = js_nth l1 k.
Proof.
  intros Hk. unfold js_nth. destruct (Z.leb_spec 0 k); [|done].
  apply lookup_app_l. lia.
Qed.

Lemma js_nth_app_r (l1 l2 : list A) k :
  Z.of_nat (length l1) ≤ k →
  js_nth (l1 ++ l2) k = js_nth l2 (k - Z.of_nat (length l1)).
Proof.
  intros Hk. unfold js_nth.
  destruct (Z.leb_spec 0 k), (Z.leb_spec 0 (k - Z.of_nat (length l1)));
    try lia.
  rewrite lookup_app_r by lia. f_equal. lia.
Qed.

Lemma js_nth_Some (l : list A) k x :
  js_nth l k = Some x → 0 ≤ k < Z.of_nat (length l).
Proof.
  unfold js_nth. destruct (Z.leb_spec 0 k); [|done].
  intros Hx%lookup_lt_Some. lia.
Qed.

Lemma js_nth_None (l : list A) k :
  ¬ (0 ≤ k < Z.of_nat (length l)) → js_nth l k = None.
Proof.
  intros Hk. unfold js_nth. destruct (Z.leb_spec 0 k); [|done].
  apply lookup_ge_None. lia.
Qed.

(** A loop that only pushes builds the image of its range. *)
Lemma fold_push {B} (f : B → A) (l : list B) (acc : list A) :
  fold_left (λ acc k, push acc (f k)) l acc = acc ++ (f <$> l).
Proof.
  revert acc. induction l as [|k l IH]; intros acc; simpl.
  - by rewrite app_nil_r.
  - rewrite IH. unfold push. by rewrite <- app_assoc.
Qed.

Lemma for_range_push (f : Z → A) n (acc : list A) :
  for_range n (λ acc k, push acc (f k)) acc = acc ++ (f <$> range n).
Proof. apply fold_push. Qed.
Lemma forallb_ext_elem (f g : A → bool) (l : list A) :
  (∀ x, x ∈ l → f x = g x) → forallb f l = forallb g l.
Proof.
  induction l as [|x l IH]; intros Hfg; [done|]. simpl.
  rewrite (Hfg x) by (by left). f_equal. apply IH.
  intros y Hy. apply Hfg. by right.
Qed.
End Loops.

(** ** The candidate lines *)

(** The loops of [generateWinningLines] build the lines of the
    specification, in its order. *)
Lemma generateWinningLines_spec N : generateWinningLines N = specLines N.
Proof.
  unfold generateWinningLines, specLines. cbv zeta.
  assert (Hrow : ∀ r, for_range N (λ row c, push row (r * N + c)) [] = rowLine N r)
    by (intros r; apply (for_range_push (λ c, r * N + c))).
  assert (Hcol : ∀ c, for_range N (λ col r, push col (r * N + c)) [] = colLine N c)
    by (intros c; apply (for_range_push (λ r, r * N + c))).
  rewrite (for_range_push (λ i, i * N + i)).
  rewrite (for_range_push (λ i, i * N + (N - 1 - i))).
  rewrite (for_range_push (λ r, for_range N (λ row c, push row (r * N + c)) [])).
  rewrite (for_range_push (λ c, for_range N (λ col r, push col (r * N + c)) [])).
  unfold push, mainDiagonal, antiDiagonal. simpl.
  rewrite <- !app_assoc. simpl. f_equal.
  - apply list_fmap_ext. intros _ r _. apply Hrow.
  - f_equal. apply list_fmap_ext. intros _ c _. apply Hcol.
Qed.

Lemma specLines_elem N l :
  l ∈ specLines N ↔
    (∃ r, 0 ≤ r < N ∧ l = rowLine N r) ∨ (∃ c, 0 ≤ c < N ∧ l = colLine N c) ∨
    l = mainDiagonal N ∨ l = antiDiagonal N.
Proof.
  unfold specLines. rewrite !elem_of_app, !list_elem_of_fmap.
  setoid_rewrite range_elem. rewrite elem_of_cons, list_elem_of_singleton.
  split.
  - intros [(r & -> & Hr)|[(c & -> & Hc)|[->| ->]]]; eauto 6.
  - intros [(r & Hr & ->)|[(c & Hc & ->)|[->| ->]]]; eauto 6.
Qed.

Lemma specLines_line_length N l :
  l ∈ specLines N → length l = Z.to_nat N.
Proof.
  rewrite specLines_elem.
  intros [(r & _ & ->)|[(c & _ & ->)|[->| ->]]];
    unfold rowLine, colLine, mainDiagonal, antiDiagonal;
    by rewrite length_fmap, range_length.
Qed.

Lemma specLines_index_bound N l idx :
  l ∈ specLines N → idx ∈ l → 0 ≤ idx < N * N.
Proof.
  rewrite specLines_elem.
  intros [(r & Hr & ->)|[(c & Hc & ->)|[->| ->]]];
    unfold rowLine, colLine, mainDiagonal, antiDiagonal;
    rewrite list_elem_of_fmap; intros (k & -> & Hk%range_elem); nia.
Qed.

Lemma specLines_length N : length (specLines N) = (2 * Z.to_nat N + 2)%nat.
Proof.
  unfold specLines. rewrite !length_app, !length_fmap, range_length. simpl. lia.
Qed.

Section Entries.
Variable N : Z.
Hypothesis HN : 0 ≤ N.

Lemma entry_row r c :
  0 ≤ r < N → 0 ≤ c < N → entry (specLines N) r c = Some (r * N + c).
Proof.
  intros Hr Hc. unfold entry, specLines.
  rewrite js_nth_app_l by (rewrite length_fmap, range_length; lia).
  rewrite js_nth_fmap, range_lookup by done. simpl.
  unfold rowLine. by rewrite js_nth_fmap, range_lookup.
Qed.

Lemma entry_col c r :
  0 ≤ c < N → 0 ≤ r < N → entry (specLines N) (N + c) r = Some (r * N + c).
Proof.
  intros Hc Hr. unfold entry, specLines.
  rewrite js_nth_app_r by (rewrite length_fmap, range_length; lia).
  rewrite length_fmap, range_length.
  replace (N + c - Z.of_nat (Z.to_nat N)) with c by lia.
  rewrite js_nth_app_l by (rewrite length_fmap, range_length; lia).
  rewrite js_nth_fmap, range_lookup by done. simpl.
  unfold colLine. by rewrite js_nth_fmap, range_lookup.
Qed.

Lemma entry_diagonals k :
  0 ≤ k →
  js_nth (specLines N) (2 * N + k) = js_nth [mainDiagonal N; antiDiagonal N] k.
Proof.
  intros Hk. unfold specLines.
  rewrite js_nth_app_r by (rewrite length_fmap, range_length; lia).
  rewrite length_fmap, range_length.
  rewrite js_nth_app_r by (rewrite length_fmap, range_length; lia).
  rewrite length_fmap, range_length. f_equal. lia.
Qed.

Lemma entry_main i :
  0 ≤ i < N → entry (specLines N) (2 * N) i = Some (i * N + i).
Proof.
  intros Hi. unfold entry.
  replace (2 * N) with (2 * N + 0) by lia. rewrite entry_diagonals by lia.
  simpl.
  unfold mainDiagonal. by rewrite js_nth_fmap, range_lookup.
Qed.

Lemma entry_anti i :
  0 ≤ i < N → entry (specLines N) (2 * N + 1) i = Some (i * N + (N - 1 - i)).
Proof.
  intros Hi. unfold entry. rewrite entry_diagonals by lia. simpl.
  unfold antiDiagonal. by rewrite js_nth_fmap, range_lookup.
Qed.
End Entries.

(** C2: for a grid size [N] (any [N >= 0], so the supported 3 and 5),
    [generateWinningLines N] has exactly [2N + 2] lines, each of length
    [N], every index is in [[0, N * N)]; line [r] (for [r < N]) is row [r],
    whose cell [c] is [r * N + c]; line [N + c] is column [c], whose cell
    [r] is [r * N + c]; line [2N] is the main diagonal, whose cell [i] is
    [i * N + i]; line [2N + 1] is the anti-diagonal, whose cell [i] is
    [i * N + (N - 1 - i)]. *)
Theorem generateWinningLines_shape (N : Z) (HN : 0 ≤ N) :
  let lines := generateWinningLines N in
  Z.of_nat (length lines) = 2 * N + 2 ∧
  (∀ l, l ∈ lines → Z.of_nat (length l) = N) ∧
  (∀ l idx, l ∈ lines → idx ∈ l → 0 ≤ idx < N * N) ∧
  (∀ r c, 0 ≤ r < N → 0 ≤ c < N → entry lines r c = Some (r * N + c)) ∧
  (∀ c r, 0 ≤ c < N → 0 ≤ r < N → entry lines (N + c) r = Some (r * N + c)) ∧
  (∀ i, 0 ≤ i < N → entry lines (2 * N) i = Some (i * N + i)) ∧
  (∀ i, 0 ≤ i < N →
        entry lines (2 * N + 1) i = Some (i * N + (N - 1 - i))).
Proof.
  cbv zeta. rewrite generateWinningLines_spec. repeat split.
  - rewrite specLines_length. lia.
  - intros l Hl. rewrite (specLines_line_length N l Hl). lia.
  - eapply specLines_index_bound; eauto.
  - eapply specLines_index_bound; eauto.
  - intros. by apply entry_row.
  - intros. by apply entry_col.
  - intros. by apply entry_main.
  - intros. by apply entry_anti.
Qed.

Lemma generateWinningLines_shape_witness :
  0 ≤ 3 ∧
  Z.of_nat (length (generateWinningLines 3)) = 2 * 3 + 2 ∧
  entry (generateWinningLines 3) (2 * 3 + 1) 0 = Some (0 * 3 + (3 - 1 - 0)).
Proof.
  assert (H3 : 0 ≤ 3) by lia.
  split; [exact H3|].
  pose proof (generateWinningLines_shape 3 H3) as (Hlen & _ & _ & _ & _ & _ & Hanti).
  split; [exact Hlen|]. apply Hanti. lia.
Defined.

(** ** The win evaluator *)

(** The test of one line decides [completeLine]. *)
Lemma lineWinner_complete squares l p :
  lineWinner squares l = Some p ↔ completeLine squares l p.
Proof.
  unfold lineWinner, completeLine.
  destruct (head l) as [first|] eqn:Hhead; simpl.
  - destruct (arr_get squares first) as [[|m]|] eqn:Hfirst.
    + split; [done|]. intros (f & [= <-] & Hf & _). congruence.
    + destruct (forallb _ l) eqn:Hall.
      * rewrite forallb_forall in Hall. split.
        -- intros [= ->]. exists first. repeat split; [done|].
           intros idx Hidx%list_elem_of_In. apply Hall in Hidx.
           apply bool_decide_eq_true in Hidx. congruence.
        -- intros (f & [= <-] & Hf & _). congruence.
      * split; [done|]. intros (f & [= <-] & Hf & Hcells).
        assert (forallb (λ idx, bool_decide (arr_get squares idx = Some (filled m))) l = true)
          as Hall'; [|congruence].
        apply forallb_forall. intros idx Hidx%list_elem_of_In.
        apply bool_decide_eq_true. rewrite (Hcells idx Hidx). done.
    + split; [done|]. intros (f & [= <-] & Hf & _). congruence.
  - split; [done|]. intros (f & Hf & _). done.
Qed.

Lemma lineWinner_none squares l :
  lineWinner squares l = None ↔ ∀ p, ¬ completeLine squares l p.
Proof.
  split.
  - intros Hnone p Hp%lineWinner_complete. congruence.
  - intros Hno. destruct (lineWinner squares l) as [p|] eqn:Hp; [|done].
    apply lineWinner_complete in Hp. by destruct (Hno p).
Qed.

(** The scan stops at the first complete line. *)
Lemma scanLines_first squares lines :
  match scanLines squares lines with
  | Some w =>
      ∃ before after,
        lines = before ++ line w :: after ∧
        completeLine squares (line w) (player w) ∧
        ∀ l, l ∈ before → ∀ p, ¬ completeLine squares l p
  | None => ∀ l, l ∈ lines → ∀ p, ¬ completeLine squares l p
  end.
Proof.
  induction lines as [|l lines IH]; simpl.
  - intros l Hl. by apply elem_of_nil in Hl.
  - destruct (lineWinner squares l) as [p|] eqn:Hl.
    + exists [], lines. simpl. split; [done|]. split.
      * by apply lineWinner_complete.
      * intros l' Hl'. by apply elem_of_nil in Hl'.
    + assert (∀ p, ¬ completeLine squares l p) as Hno
        by (by apply lineWinner_none).
      destruct (scanLines squares lines) as [w|].
      * destruct IH as (before & after & -> & Hw & Hbefore).
        exists (l :: before), after. simpl. split; [done|]. split; [done|].
        intros l' [->|Hl']%elem_of_cons; auto.
      * intros l' [->|Hl']%elem_of_cons; auto.
Qed.

(** C1: [calculateWinner] scans the candidate lines in the enumeration
    order of the specification (the [N] rows, the [N] columns, the main
    diagonal, the anti-diagonal).  When it reports a winner, the reported
    line is the first line of that enumeration whose first cell holds a
    mark and whose cells all hold what the first one holds, and the
    reported player is that mark; when it reports none, no line of the
    enumeration is complete. *)
Theorem calculateWinner_first_complete_line (squares : jsarray) (N : Z) :
  generateWinningLines N =
    (rowLine N <$> range N) ++ (colLine N <$> range N)
    ++ [mainDiagonal N; antiDiagonal N] ∧
  match calculateWinner (Some squares) N with
  | Some w =>
      ∃ before after,
        generateWinningLines N = before ++ line w :: after ∧
        completeLine squares (line w) (player w) ∧
        ∀ l, l ∈ before → ∀ p, ¬ completeLine squares l p
  | None =>
      ∀ l, l ∈ generateWinningLines N → ∀ p, ¬ completeLine squares l p
  end.
Proof.
  split; [apply generateWinningLines_spec|].
  unfold calculateWinner. apply scanLines_first.
Qed.

(** ** Arrays of cells *)

Lemma arr_get_slice a k :
  arr_get (arr_slice a) k =
    if decide (0 ≤ k < arr_length a) then arr_get a k else None.
Proof.
  unfold arr_get, arr_slice. simpl.
  destruct (arr_props a !! k) as [v|] eqn:Hk.
  - case_decide as Hin.
    + apply map_lookup_filter_Some. by split.
    + apply map_lookup_filter_None. right. intros v' Hv'. simpl. done.
  - assert (filter (λ kv : Z * cell, 0 ≤ kv.1 < arr_length a) (arr_props a) !! k
            = None) as ->.
    { apply map_lookup_filter_None. by left. }
    by case_decide.
Qed.

Lemma arr_get_set a i v k :
  arr_get (arr_set a i v) k = if decide (k = i) then Some v else arr_get a k.
Proof.
  unfold arr_get, arr_set. simpl. rewrite lookup_insert.
  repeat case_decide; congruence.
Qed.

Lemma arr_length_set_inside a i v :
  0 ≤ i < arr_length a → arr_length (arr_set a i v) = arr_length a.
Proof. intros Hi. unfold arr_set. simpl. destruct (is_array_index i); lia. Qed.

Lemma arr_length_set_index a i v :
  is_array_index i = true →
  arr_length (arr_set a i v) = Z.max (arr_length a) (i + 1).
Proof. intros Hi. unfold arr_set. simpl. by rewrite Hi. Qed.

Lemma arr_length_set_property a i v :
  is_array_index i = false → arr_length (arr_set a i v) = arr_length a.
Proof. intros Hi. unfold arr_set. simpl. by rewrite Hi. Qed.

Lemma fill_lookup (l : list Z) (m : gmap Z cell) k :
  fold_left (λ m k, <[k := null]> m) l m !! k =
    if decide (k ∈ l) then Some null else m !! k.
Proof.
  revert m. induction l as [|j l IH]; intros m; simpl.
  - destruct (decide (k ∈ [])) as [Hk|]; [inversion Hk|done].
  - rewrite IH. destruct (decide (k ∈ l)) as [Hin|Hnin].
    + rewrite decide_True; [done|by apply elem_of_cons; right].
    + rewrite lookup_insert. destruct (decide (j = k)) as [->|Hne].
      * rewrite decide_True; [done|by apply elem_of_cons; left].
      * rewrite decide_False; [done|].
        intros [->|Hin]%elem_of_cons; done.
Qed.

(** The array made by [Array(n).fill(null)]. *)
Lemma Array_fill_null_ok n :
  0 ≤ n ≤ 4294967295 →
  ∃ b, Array_fill_null n = Ok b ∧ arr_length b = n ∧
       ∀ k, arr_get b k = if decide (0 ≤ k < n) then Some null else None.
Proof.
  intros Hn. unfold Array_fill_null.
  destruct (Z.leb_spec 0 n), (Z.leb_spec n 4294967295); try lia. simpl.
  eexists. split; [done|]. split; [done|].
  intros k. unfold arr_get, for_range. simpl. rewrite fill_lookup.
  destruct (decide (k ∈ range n)) as [Hk|Hk]; rewrite range_elem in Hk.
  - by rewrite decide_True.
  - by rewrite decide_False.
Qed.

Lemma Array_fill_null_inv n b :
  Array_fill_null n = Ok b →
  arr_length b = n ∧
  ∀ k, arr_get b k = if decide (0 ≤ k < n) then Some null else None.
Proof.
  intros Hb.
  assert (0 ≤ n ≤ 4294967295) as Hn.
  { unfold Array_fill_null in Hb.
    destruct (Z.leb_spec 0 n), (Z.leb_spec n 4294967295); simpl in Hb;
      try discriminate; lia. }
  destruct (Array_fill_null_ok n Hn) as (b' & Hb' & Hlen & Hget).
  rewrite Hb' in Hb. injection Hb as <-. done.
Qed.

(** ** Turns and the active board *)

Lemma xIsNext_even s : xIsNext s = Z.even (currentMove s).
Proof.
  unfold xIsNext. destruct (Z.even (currentMove s)) eqn:Heven.
  - apply Z.eqb_eq. apply Z.even_spec in Heven as [k ->].
    rewrite Z.mul_comm. apply Z.rem_mul. lia.
  - apply Z.eqb_neq. intros Hrem.
    assert (Z.even (currentMove s) = true); [|congruence].
    apply Z.even_spec. exists (Z.quot (currentMove s) 2).
    rewrite (Z.quot_rem' (currentMove s) 2) at 1. lia.
Qed.

Lemma currentSquares_bounds s sq :
  currentSquares s = Some sq →
  0 ≤ currentMove s < Z.of_nat (length (history s)).
Proof. apply js_nth_Some. Qed.

(** The part of the history that [handlePlay] keeps. *)
Lemma js_slice0_succ {A} (h : list A) m :
  0 ≤ m → js_slice0 h (m + 1) = take (Z.to_nat (m + 1)) h.
Proof.
  intros Hm. unfold js_slice0.
  destruct (Z.ltb_spec (m + 1) 0); [lia|].
  destruct (Z.min_spec (m + 1) (Z.of_nat (length h))) as [[_ ->]|[Hle ->]];
    [done|].
  rewrite Nat2Z.id, firstn_all, take_ge; [done|lia].
Qed.

Lemma handlePlay_history next s :
  0 ≤ currentMove s →
  history (handlePlay next s) =
    take (Z.to_nat (currentMove s + 1)) (history s) ++ [next].
Proof. intros Hm. unfold handlePlay. simpl. by rewrite js_slice0_succ. Qed.

Lemma handlePlay_currentMove next s :
  currentMove (handlePlay next s) =
    Z.of_nat (length (history (handlePlay next s))) - 1.
Proof. done. Qed.

(** A click on a state with an active board: the render succeeds and the
    handler runs. *)
Lemma play_handleClick s i sq :
  currentSquares s = Some sq →
  play i s =
    Ok (handleClick (calculateWinner (Some sq) (boardSize s)) sq (xIsNext s)
          handlePlay i s).
Proof. intros Hsq. unfold play, GameScreen. by rewrite Hsq. Qed.

Lemma play_undefined s i : currentSquares s = None → play i s = Throw TypeError.
Proof. intros Hsq. unfold play, GameScreen. by rewrite Hsq. Qed.

(** The two outcomes of a click. *)
Lemma handleClick_return w sq x onPlay i s :
  is_Some w ∨ truthy (arr_get sq i) = true →
  handleClick w sq x onPlay i s = s.
Proof.
  intros Hguard. unfold handleClick.
  destruct Hguard as [Hw|Hocc].
  - by rewrite bool_decide_eq_true_2.
  - rewrite Hocc, orb_true_r. done.
Qed.

Lemma handleClick_move sq x onPlay i s :
  truthy (arr_get sq i) = false →
  handleClick None sq x onPlay i s =
    onPlay (arr_set (arr_slice sq) i (filled (if x then X else O))) s.
Proof.
  intros Hfree. unfold handleClick.
  rewrite bool_decide_eq_false_2 by (by intros [? ?]).
  by rewrite Hfree.
Qed.

(** The sample states are states of real sessions. *)
Example menu3_initial : initial = Ok menu3.
Proof. vm_compute. reflexivity. Qed.

Example started3_session : handleStart menu3 = Ok started3.
Proof. vm_compute. reflexivity. Qed.

Example moves0415_session :
  ((play 0 started3 ≫= play 4) ≫= play 1) ≫= play 5 = Ok moves0415.
Proof. vm_compute. reflexivity. Qed.

Example wonByX_session : play 2 moves0415 = Ok wonByX.
Proof. vm_compute. reflexivity. Qed.

Example moves04_session : play 0 started3 ≫= play 4 = Ok moves04.
Proof. vm_compute. reflexivity. Qed.

(** ** Playing *)

(** A click that passes the guard plays the move, whatever the index: the
    history is cut after the active board, and a copy of the elements of
    the active board with the mark written under the index is appended. *)
Lemma play_move s i sq :
  currentSquares s = Some sq →
  calculateWinner (Some sq) (boardSize s) = None →
  isEmpty sq i →
  let next :=
    arr_set (arr_slice sq) i (filled (if xIsNext s then X else O)) in
  play i s = Ok (handlePlay next s) ∧
  history (handlePlay next s) =
    take (Z.to_nat (currentMove s + 1)) (history s) ++ [next] ∧
  currentMove (handlePlay next s) = currentMove s + 1 ∧
  ∀ k, arr_get next k =
       if decide (k = i)
       then Some (filled (if Z.even (currentMove s) then X else O))
       else if decide (0 ≤ k < arr_length sq) then arr_get sq k
       else None.
Proof.
  intros Hsq Hwin Hfree next.
  pose proof (currentSquares_bounds _ _ Hsq) as Hm.
  assert (history (handlePlay next s) =
            take (Z.to_nat (currentMove s + 1)) (history s) ++ [next])
    as Hhist by (apply handlePlay_history; lia).
  split; [|split; [done|split]].
  - by rewrite (play_handleClick _ _ _ Hsq), Hwin, handleClick_move.
  - rewrite handlePlay_currentMove, Hhist, length_app, length_take. simpl. lia.
  - intros k. unfold next. by rewrite arr_get_set, arr_get_slice, xIsNext_even.
Qed.

(** C3: a legal play (the active board exists and has no winner, the cell
    index is within the board and the cell is empty) succeeds.  The new
    board has the length of the active board, holds the mark of the player
    given by the parity of [currentMove] (X when even, O when odd) at the
    cell index, and holds what the active board holds everywhere else.  The
    new history is the old one cut down to the indices [0 .. currentMove]
    followed by the new board, and [currentMove] becomes the new last index.
    In particular, on a history of length 5, a legal play after [jumpTo 0]
    leaves a history of length 2. *)
Theorem play_legal :
  (∀ (s : state) (i : Z) (sq : jsarray),
     currentSquares s = Some sq →
     calculateWinner (Some sq) (boardSize s) = None →
     0 ≤ i < arr_length sq →
     isEmpty sq i →
     ∃ s' b',
       play i s = Ok s' ∧
       history s' = take (Z.to_nat (currentMove s + 1)) (history s) ++ [b'] ∧
       currentMove s' = Z.of_nat (length (history s')) - 1 ∧
       currentMove s' = currentMove s + 1 ∧
       arr_length b' = arr_length sq ∧
       (∀ k, arr_get b' k =
             if decide (k = i)
             then Some (filled (if Z.even (currentMove s) then X else O))
             else if decide (0 ≤ k < arr_length sq) then arr_get sq k
             else None)) ∧
  (∀ (s : state) (i : Z) (sq : jsarray),
     length (history s) = 5%nat →
     currentSquares (jumpTo 0 s) = Some sq →
     calculateWinner (Some sq) (boardSize s) = None →
     0 ≤ i < arr_length sq →
     isEmpty sq i →
     ∃ s', play i (jumpTo 0 s) = Ok s' ∧ length (history s') = 2%nat).
Proof.
  split.
  - intros s i sq Hsq Hwin Hi Hfree.
    destruct (play_move s i sq Hsq Hwin Hfree) as (Hplay & Hhist & Hmove & Hget).
    eexists _, _. split; [exact Hplay|]. split; [exact Hhist|].
    split; [done|]. split; [exact Hmove|]. split; [|exact Hget].
    by apply (arr_length_set_inside (arr_slice sq)).
  - intros s i sq Hlen Hsq Hwin Hi Hfree.
    destruct (play_move (jumpTo 0 s) i sq Hsq Hwin Hfree)
      as (Hplay & Hhist & _).
    eexists. split; [exact Hplay|].
    rewrite Hhist, length_app, length_take. unfold jumpTo. simpl.
    rewrite Hlen. lia.
Qed.

Lemma play_legal_witness :
  ∃ s' b',
    play 2 moves0415 = Ok s' ∧
    history s' = take (Z.to_nat (4 + 1)) (history moves0415) ++ [b'] ∧
    currentMove s' = Z.of_nat (length (history s')) - 1 ∧
    currentMove s' = 4 + 1 ∧
    arr_length b' = 9 ∧
    (∀ k, arr_get b' k =
          if decide (k = 2) then Some (filled X)
          else if decide (0 ≤ k < 9)
               then arr_get (board_of [filled X; filled X; null; null;
                                       filled O; filled O; null; null; null]) k
               else None).
Proof.
  apply (proj1 play_legal moves0415 2
           (board_of [filled X; filled X; null; null;
                      filled O; filled O; null; null; null])).
  - reflexivity.
  - vm_compute. reflexivity.
  - vm_compute. split; [discriminate|reflexivity].
  - reflexivity.
Defined.

(** C4: a play on an occupied cell, or while the active board has a winner,
    returns without an exception and leaves the whole state as it was, so
    the history (and its length), [currentMove], [scoreX] and [scoreO] are
    unchanged. *)
Theorem play_illegal_noop (s : state) (i : Z) (sq : jsarray) :
  currentSquares s = Some sq →
  (∃ m, arr_get sq i = Some (filled m)) ∨
  is_Some (calculateWinner (Some sq) (boardSize s)) →
  play i s = Ok s ∧
  ∀ s', play i s = Ok s' →
        length (history s') = length (history s) ∧
        currentMove s' = currentMove s ∧
        scoreX s' = scoreX s ∧ scoreO s' = scoreO s.
Proof.
  intros Hsq Hillegal.
  assert (play i s = Ok s) as Hplay.
  { rewrite (play_handleClick _ _ _ Hsq). f_equal.
    apply handleClick_return. destruct Hillegal as [[m Hm]|Hw]; [right|by left].
    by rewrite Hm. }
  split; [exact Hplay|].
  intros s' Hs'. rewrite Hplay in Hs'. by injection Hs' as <-.
Qed.

Lemma play_illegal_noop_witness :
  play 0 moves0415 = Ok moves0415 ∧ play 8 wonByX = Ok wonByX.
Proof.
  split.
  - refine (proj1 (play_illegal_noop moves0415 0
                     (board_of [filled X; filled X; null; null;
                                filled O; filled O; null; null; null]) _ _)).
    + reflexivity.
    + left. exists X. reflexivity.
  - refine (proj1 (play_illegal_noop wonByX 8
                     (board_of [filled X; filled X; filled X; null;
                                filled O; filled O; null; null; null]) _ _)).
    + reflexivity.
    + right. vm_compute. eexists. reflexivity.
Defined.

(** Every click on a state with an active board either returns at the
    guard or calls [handlePlay] once, with the copy that holds the mark. *)
Lemma play_cases s i sq :
  currentSquares s = Some sq →
  play i s = Ok s ∨
  play i s =
    Ok (handlePlay
          (arr_set (arr_slice sq) i (filled (if xIsNext s then X else O))) s).
Proof.
  intros Hsq. rewrite (play_handleClick _ _ _ Hsq). unfold handleClick.
  destruct (_ || _); [by left|by right].
Qed.

Lemma play_Ok_inv s i s' :
  play i s = Ok s' → ∃ sq, currentSquares s = Some sq.
Proof.
  intros Hplay. destruct (currentSquares s) as [sq|] eqn:Hsq; [by eexists|].
  by rewrite play_undefined in Hplay.
Qed.

(** ** Time travel *)

(** C5, as the code has it: [jumpTo] has no range check.  For a move index
    outside [[0, length history)] it raises nothing and sets [currentMove]
    to that index; the history, the scores, the grid size and the screen
    are unchanged.  Afterwards [history[currentMove]] is [undefined], and
    the status read throws a [TypeError]. *)
Theorem jumpTo_unchecked (s : state) (moveIndex : Z) :
  ¬ (0 ≤ moveIndex < Z.of_nat (length (history s))) →
  currentMove (jumpTo moveIndex s) = moveIndex ∧
  history (jumpTo moveIndex s) = history s ∧
  scoreX (jumpTo moveIndex s) = scoreX s ∧
  scoreO (jumpTo moveIndex s) = scoreO s ∧
  boardSize (jumpTo moveIndex s) = boardSize s ∧
  screen (jumpTo moveIndex s) = screen s ∧
  currentSquares (jumpTo moveIndex s) = None ∧
  status (jumpTo moveIndex s) = Throw TypeError.
Proof.
  intros Hout. repeat split.
  - unfold currentSquares. simpl. by apply js_nth_None.
  - unfold status, GameScreen, currentSquares. simpl.
    by rewrite js_nth_None.
Qed.

Lemma jumpTo_unchecked_witness :
  currentMove (jumpTo 10 moves04) = 10 ∧
  history (jumpTo 10 moves04) = history moves04 ∧
  scoreX (jumpTo 10 moves04) = scoreX moves04 ∧
  scoreO (jumpTo 10 moves04) = scoreO moves04 ∧
  boardSize (jumpTo 10 moves04) = boardSize moves04 ∧
  screen (jumpTo 10 moves04) = screen moves04 ∧
  currentSquares (jumpTo 10 moves04) = None ∧
  status (jumpTo 10 moves04) = Throw TypeError.
Proof.
  apply (jumpTo_unchecked moves04 10). refute_range.
Defined.

(** C5 as stated fails: on a history of length 3, [jumpTo 10] changes the
    state, [currentMove] goes from 2 to 10. *)
Lemma jumpTo_out_of_range_changes_state :
  length (history moves04) = 3%nat ∧
  ¬ (0 ≤ 10 < Z.of_nat (length (history moves04))) ∧
  currentMove moves04 = 2 ∧
  currentMove (jumpTo 10 moves04) = 10 ∧
  jumpTo 10 moves04 ≠ moves04.
Proof.
  split; [reflexivity|]. split; [refute_range|].
  split; [reflexivity|]. split; [reflexivity|].
  intros Heq. apply (f_equal currentMove) in Heq. discriminate.
Qed.

(** ** Scores *)

(** The scores after [handlePlay], by the outcome of the evaluation of the
    new board. *)
Lemma handlePlay_scores next s :
  match calculateWinner (Some next) (boardSize s) with
  | Some w =>
      match player w with
      | X => scoreX (handlePlay next s) = scoreX s + 1 ∧
             scoreO (handlePlay next s) = scoreO s
      | O => scoreX (handlePlay next s) = scoreX s ∧
             scoreO (handlePlay next s) = scoreO s + 1
      end
  | None => scoreX (handlePlay next s) = scoreX s ∧
            scoreO (handlePlay next s) = scoreO s
  end.
Proof.
  unfold handlePlay. cbn [scoreX scoreO].
  destruct (calculateWinner (Some next) (boardSize s)) as [[[|] l]|];
    cbn; done.
Qed.

Lemma handlePlay_scores_bounds next s :
  scoreX s ≤ scoreX (handlePlay next s) ∧
  scoreO s ≤ scoreO (handlePlay next s) ∧
  scoreX (handlePlay next s) + scoreO (handlePlay next s)
    ≤ scoreX s + scoreO s + 1.
Proof.
  pose proof (handlePlay_scores next s) as Hscores.
  destruct (calculateWinner (Some next) (boardSize s)) as [[[|] l]|];
    cbn [player] in Hscores; lia.
Qed.

(** C6: a play on a state with an active board succeeds, and its effect
    on the counters is fixed by the guard of the click handler.  When the
    active board has a winner or the cell holds a mark, nothing changes.
    Otherwise (no winner, no mark in the cell) the play records the new
    board, the copy of the active board with the mark of the player of the
    move in the cell, and the counters follow the evaluation of that new
    board: with a winner, the winner's counter goes up by exactly 1 and the
    other one is unchanged; with no winner (so also on a draw, a full board
    with no complete line) both are unchanged.  In all cases no counter
    decreases and [scoreX + scoreO] grows by at most 1. *)
Theorem play_scores (s : state) (cellIndex : Z) (sq : jsarray) :
  currentSquares s = Some sq →
  let mover := if Z.even (currentMove s) then X else O in
  let b' := arr_set (arr_slice sq) cellIndex (filled mover) in
  ∃ s',
    play cellIndex s = Ok s' ∧
    scoreX s ≤ scoreX s' ∧ scoreO s ≤ scoreO s' ∧
    scoreX s' + scoreO s' ≤ scoreX s + scoreO s + 1 ∧
    (is_Some (calculateWinner (Some sq) (boardSize s)) ∨
     (∃ m, arr_get sq cellIndex = Some (filled m)) →
     s' = s) ∧
    (calculateWinner (Some sq) (boardSize s) = None →
     isEmpty sq cellIndex →
     history s' = take (Z.to_nat (currentMove s + 1)) (history s) ++ [b'] ∧
     match calculateWinner (Some b') (boardSize s) with
     | Some w =>
         match player w with
         | X => scoreX s' = scoreX s + 1 ∧ scoreO s' = scoreO s
         | O => scoreX s' = scoreX s ∧ scoreO s' = scoreO s + 1
         end
     | None => scoreX s' = scoreX s ∧ scoreO s' = scoreO s
     end).
Proof.
  intros Hsq mover b'. pose proof (currentSquares_bounds _ _ Hsq) as Hm.
  destruct (calculateWinner (Some sq) (boardSize s)) as [w|] eqn:Hw.
  { exists s. split.
    - rewrite (play_handleClick _ _ _ Hsq), Hw, handleClick_return;
        [done|left; by eexists].
    - split; [lia|]. split; [lia|]. split; [lia|]. split; done. }
  destruct (truthy (arr_get sq cellIndex)) eqn:Hcell.
  { exists s. split.
    - rewrite (play_handleClick _ _ _ Hsq), Hw, handleClick_return;
        [done|by right].
    - split; [lia|]. split; [lia|]. split; [lia|]. split; [done|].
      intros _ Hfree. unfold isEmpty in Hfree. congruence. }
  destruct (play_move s cellIndex sq Hsq Hw Hcell) as (Hplay & Hhist & _).
  rewrite xIsNext_even in Hplay, Hhist. fold mover in Hplay, Hhist.
  fold b' in Hplay, Hhist.
  exists (handlePlay b' s). split; [exact Hplay|].
  pose proof (handlePlay_scores b' s) as Hscores.
  destruct (handlePlay_scores_bounds b' s) as (HX & HO & Hsum).
  split; [exact HX|]. split; [exact HO|]. split; [exact Hsum|]. split.
  - intros [[w Hsome]|[m Hmark]]; [done|].
    rewrite Hmark in Hcell. done.
  - intros _ _. split; [exact Hhist|exact Hscores].
Qed.

Lemma play_scores_witness :
  ∃ s',
    play 2 moves0415 = Ok s' ∧
    Z.of_nat (length (history s')) = 6 ∧
    scoreX s' = scoreX moves0415 + 1 ∧
    scoreO s' = scoreO moves0415.
Proof.
  destruct (play_scores moves0415 2
              (board_of [filled X; filled X; null; null;
                         filled O; filled O; null; null; null]) eq_refl)
    as (s' & Hplay & _ & _ & _ & _ & Hmove).
  exists s'. split; [exact Hplay|].
  destruct Hmove as [Hhist Hscores]; [vm_compute; reflexivity|reflexivity|].
  split; [rewrite Hhist; reflexivity|].
  vm_compute calculateWinner in Hscores. exact Hscores.
Defined.

(** ** Restart *)

(** C7: [restartGame] (for a grid size whose board [Array] can allocate,
    so for 3 and 5) sets the history to one board of [N * N] cells that are
    all [null], and [currentMove] to 0; [scoreX], [scoreO], the grid size
    and the screen keep their values. *)
Theorem restartGame_resets (s : state) :
  boardSize s * boardSize s ≤ 4294967295 →
  ∃ s' b,
    restartGame s = Ok s' ∧
    history s' = [b] ∧
    arr_length b = boardSize s * boardSize s ∧
    (∀ k, arr_get b k =
          if decide (0 ≤ k < boardSize s * boardSize s) then Some null
          else None) ∧
    currentMove s' = 0 ∧
    scoreX s' = scoreX s ∧
    scoreO s' = scoreO s ∧
    boardSize s' = boardSize s ∧
    screen s' = screen s.
Proof.
  intros Hsize.
  destruct (Array_fill_null_ok (boardSize s * boardSize s))
    as (b & Hb & Hlen & Hget); [nia|].
  unfold restartGame. rewrite Hb. simpl.
  eexists _, b. repeat split; done.
Qed.

Lemma restartGame_resets_witness :
  ∃ s' b,
    restartGame wonByX = Ok s' ∧
    history s' = [b] ∧
    arr_length b = boardSize wonByX * boardSize wonByX ∧
    (∀ k, arr_get b k =
          if decide (0 ≤ k < boardSize wonByX * boardSize wonByX)
          then Some null else None) ∧
    currentMove s' = 0 ∧
    scoreX s' = scoreX wonByX ∧
    scoreO s' = scoreO wonByX ∧
    boardSize s' = boardSize wonByX ∧
    screen s' = screen wonByX.
Proof. apply (restartGame_resets wonByX). vm_compute. discriminate. Defined.

(** ** Status *)

Lemma arr_every_true f a :
  arr_every f a = true ↔
  ∀ k, 0 ≤ k < arr_length a → ∀ v, arr_get a k = Some v → f v = true.
Proof.
  unfold arr_every. rewrite forallb_forall. split.
  - intros Hall k Hk v Hv.
    specialize (Hall k). rewrite Hv in Hall. apply Hall.
    apply list_elem_of_In, range_elem, Hk.
  - intros Hall k Hk%list_elem_of_In%range_elem.
    destruct (arr_get a k) as [v|] eqn:Hv; [|done]. by apply (Hall k).
Qed.

Lemma calculateWinner_none squares N :
  calculateWinner (Some squares) N = None ↔
  ¬ ∃ l p, l ∈ generateWinningLines N ∧ completeLine squares l p.
Proof.
  unfold calculateWinner.
  pose proof (scanLines_first squares (generateWinningLines N)) as Hscan.
  destruct (scanLines squares (generateWinningLines N)) as [w|].
  - split; [done|]. intros Hno. destruct Hno.
    destruct Hscan as (before & after & Hlines & Hw & _).
    exists (line w), (player w). split; [|done].
    rewrite Hlines. apply elem_of_app. right. by left.
  - split; [|done]. intros _ (l & p & Hl & Hp). by apply (Hscan l Hl p).
Qed.

Lemma status_text s sq :
  currentSquares s = Some sq →
  status s =
    Ok (statusText (calculateWinner (Some sq) (boardSize s)) sq (xIsNext s)).
Proof. intros Hsq. unfold status, GameScreen. by rewrite Hsq. Qed.

(** C8: the status read of a state whose active board has no holes
    succeeds and is derived from the active board alone: it names the
    winner that [calculateWinner] reports when some candidate line is
    complete; it is the draw message when no line is complete and no cell
    is empty; otherwise it names the next player, X exactly when
    [currentMove] is even and O when it is odd. *)
Theorem status_derivation (s : state) (sq : jsarray) :
  currentSquares s = Some sq →
  dense sq →
  let someLineComplete :=
    ∃ l p, l ∈ generateWinningLines (boardSize s) ∧ completeLine sq l p in
  ∃ text,
    status s = Ok text ∧
    (someLineComplete →
       ∃ w, calculateWinner (Some sq) (boardSize s) = Some w ∧
            completeLine sq (line w) (player w) ∧
            text = "Winner: " +:+ mark_str (player w)) ∧
    (¬ someLineComplete →
       (∀ k, 0 ≤ k < arr_length sq → ¬ isEmpty sq k) →
       text = "Draw!") ∧
    (¬ someLineComplete →
       (∃ k, 0 ≤ k < arr_length sq ∧ isEmpty sq k) →
       text = "Next: " +:+ (if Z.even (currentMove s) then "X" else "O")).
Proof.
  intros Hsq Hdense someLineComplete.
  rewrite (status_text s sq Hsq). eexists. split; [done|].
  pose proof (calculateWinner_none sq (boardSize s)) as Hnone.
  pose proof (scanLines_first sq (generateWinningLines (boardSize s)))
    as Hfirst.
  fold (calculateWinner (Some sq) (boardSize s)) in Hfirst.
  unfold statusText.
  destruct (calculateWinner (Some sq) (boardSize s)) as [w|] eqn:Hw.
  - split; [|split]; [|intros Hno; by apply Hnone in Hno..].
    intros _. exists w. destruct Hfirst as (? & ? & _ & Hcomplete & _).
    done.
  - split; [|split].
    + intros Hsome. by apply (proj1 Hnone) in Hsome.
    + intros _ Hfull.
      assert (arr_every (λ val, bool_decide (val ≠ null)) sq = true) as ->;
        [|done].
      apply arr_every_true. intros k Hk v Hv.
      apply bool_decide_eq_true. intros ->.
      apply (Hfull k Hk). unfold isEmpty. by rewrite Hv.
    + intros _ (k & Hk & Hempty).
      assert (arr_every (λ val, bool_decide (val ≠ null)) sq = false) as ->.
      { apply not_true_is_false. intros Hall.
        destruct (Hdense k Hk) as [v Hv].
        pose proof (proj1 (arr_every_true _ _) Hall k Hk v Hv) as Hnn.
        apply bool_decide_eq_true in Hnn.
        unfold isEmpty in Hempty. rewrite Hv in Hempty.
        destruct v; [done|discriminate]. }
      by rewrite xIsNext_even.
Qed.

Lemma denseb_dense b : denseb b = true → dense b.
Proof.
  unfold denseb, dense. rewrite forallb_forall. intros Hall k Hk.
  eapply bool_decide_eq_true, Hall. apply list_elem_of_In, range_elem, Hk.
Qed.

Lemma status_derivation_witness :
  ∃ text,
    status wonByX = Ok text ∧
    ((∃ l p, l ∈ generateWinningLines 3 ∧
             completeLine (board_of [filled X; filled X; filled X; null;
                                     filled O; filled O; null; null; null])
                          l p) →
     ∃ w, calculateWinner
            (Some (board_of [filled X; filled X; filled X; null;
                             filled O; filled O; null; null; null])) 3
          = Some w ∧
          completeLine (board_of [filled X; filled X; filled X; null;
                                  filled O; filled O; null; null; null])
                       (line w) (player w) ∧
          text = "Winner: " +:+ mark_str (player w)).
Proof.
  destruct (status_derivation wonByX
              (board_of [filled X; filled X; filled X; null;
                         filled O; filled O; null; null; null]))
    as (text & Hstatus & Hwin & _).
  - reflexivity.
  - apply denseb_dense. vm_compute. reflexivity.
  - exists text. split; [exact Hstatus|exact Hwin].
Defined.

(** ** Cell indices outside the board *)

(** The evaluation reads the cells of the candidate lines only. *)
Lemma lineWinner_ext b b' l :
  (∀ idx, idx ∈ l → arr_get b' idx = arr_get b idx) →
  lineWinner b' l = lineWinner b l.
Proof.
  intros Hsame. unfold lineWinner. destruct l as [|first l]; [done|].
  change (head (first :: l) ≫= arr_get b') with (arr_get b' first).
  change (head (first :: l) ≫= arr_get b) with (arr_get b first).
  rewrite (Hsame first) by (by left).
  destruct (arr_get b first) as [[|p]|]; try done.
  erewrite forallb_ext_elem; [done|].
  intros idx Hidx. cbv beta. by rewrite Hsame.
Qed.

Lemma scanLines_ext b b' lines :
  (∀ l idx, l ∈ lines → idx ∈ l → arr_get b' idx = arr_get b idx) →
  scanLines b' lines = scanLines b lines.
Proof.
  induction lines as [|l lines IH]; intros Hsame; [done|]. simpl.
  rewrite (lineWinner_ext b b' l) by (intros idx Hidx; apply (Hsame l); [by left|done]).
  destruct (lineWinner b l); [done|].
  apply IH. intros l' idx Hl' Hidx. apply (Hsame l'); [by right|done].
Qed.

Lemma calculateWinner_ext b b' N :
  (∀ k, 0 ≤ k < N * N → arr_get b' k = arr_get b k) →
  calculateWinner (Some b') N = calculateWinner (Some b) N.
Proof.
  intros Hsame. unfold calculateWinner. apply scanLines_ext.
  intros l idx Hl Hidx. apply Hsame.
  rewrite generateWinningLines_spec in Hl.
  by apply (specLines_index_bound N l idx).
Qed.

(** C9, as the code has it: [play] has no bounds check and raises nothing
    for a cell index outside the grid.  On an active board of [N * N]
    cells, for a cell index outside [[0, N * N)] whose key holds no mark:
    when the active board has a winner the play is a no-op; when it has no
    winner the play is carried out like a legal move, so the state
    changes: the history is cut down to the indices [0 .. currentMove], a
    copy of the active board with the mark of the player given by the
    parity of [currentMove] under that key is appended, and [currentMove]
    becomes the new last index.  The new array has length [cellIndex + 1]
    when [N * N <= cellIndex < 2^32 - 1]; when [cellIndex] is negative or
    at least [2^32 - 1] the mark is a property, not an element, and the
    length stays [N * N].  The new board has no winner and the scores are
    unchanged. *)
Theorem play_out_of_bounds (s : state) (cellIndex : Z) (sq : jsarray) :
  currentSquares s = Some sq →
  arr_length sq = boardSize s * boardSize s →
  ¬ (0 ≤ cellIndex < boardSize s * boardSize s) →
  isEmpty sq cellIndex →
  (is_Some (calculateWinner (Some sq) (boardSize s)) →
   play cellIndex s = Ok s) ∧
  (calculateWinner (Some sq) (boardSize s) = None →
   ∃ s' b',
     play cellIndex s = Ok s' ∧
     s' ≠ s ∧
     history s' = take (Z.to_nat (currentMove s + 1)) (history s) ++ [b'] ∧
     currentMove s' = Z.of_nat (length (history s')) - 1 ∧
     currentMove s' = currentMove s + 1 ∧
     (boardSize s * boardSize s ≤ cellIndex < 4294967295 →
      arr_length b' = cellIndex + 1) ∧
     (cellIndex < 0 ∨ 4294967295 ≤ cellIndex →
      arr_length b' = boardSize s * boardSize s) ∧
     (∀ k, arr_get b' k =
           if decide (k = cellIndex)
           then Some (filled (if Z.even (currentMove s) then X else O))
           else if decide (0 ≤ k < boardSize s * boardSize s)
                then arr_get sq k
                else None) ∧
     calculateWinner (Some b') (boardSize s) = None ∧
     scoreX s' = scoreX s ∧ scoreO s' = scoreO s).
Proof.
  intros Hsq Hlen Hout Hfree. split.
  { intros Hwinner. rewrite (play_handleClick _ _ _ Hsq), handleClick_return;
      [done|by left]. }
  intros Hwin.
  destruct (play_move s cellIndex sq Hsq Hwin Hfree)
    as (Hplay & Hhist & Hmove & Hget).
  set (next := arr_set (arr_slice sq) cellIndex
                 (filled (if xIsNext s then X else O))) in *.
  rewrite Hlen in Hget.
  assert (calculateWinner (Some next) (boardSize s) = None) as Hnext.
  { rewrite <- Hwin. apply calculateWinner_ext. intros k Hk.
    rewrite Hget, decide_False by (intros ->; lia).
    rewrite decide_True; [done|lia]. }
  pose proof (handlePlay_scores next s) as Hscores. rewrite Hnext in Hscores.
  assert (arr_length next =
            if is_array_index cellIndex
            then Z.max (boardSize s * boardSize s) (cellIndex + 1)
            else boardSize s * boardSize s) as Hnew
    by (unfold next, arr_set; simpl; by rewrite Hlen).
  unfold is_array_index in Hnew.
  exists (handlePlay next s), next. split; [exact Hplay|]. split.
  { intros Heq. apply (f_equal currentMove) in Heq. lia. }
  split; [exact Hhist|]. split; [done|]. split; [exact Hmove|]. split.
  { intros Hindex. rewrite Hnew.
    destruct (Z.leb_spec 0 cellIndex), (Z.ltb_spec cellIndex 4294967295);
      simpl; nia. }
  split.
  { intros Hproperty. rewrite Hnew.
    destruct (Z.leb_spec 0 cellIndex), (Z.ltb_spec cellIndex 4294967295);
      simpl; lia. }
  split; [exact Hget|]. split; [exact Hnext|]. exact Hscores.
Qed.

Lemma play_out_of_bounds_witness :
  (is_Some (calculateWinner (Some (board_of (replicate 9 null))) 3) →
   play 9 started3 = Ok started3) ∧
  (calculateWinner (Some (board_of (replicate 9 null))) 3 = None →
   ∃ s' b',
     play 9 started3 = Ok s' ∧
     s' ≠ started3 ∧
     history s' = take (Z.to_nat (0 + 1)) (history started3) ++ [b'] ∧
     currentMove s' = Z.of_nat (length (history s')) - 1 ∧
     currentMove s' = 0 + 1 ∧
     (3 * 3 ≤ 9 < 4294967295 → arr_length b' = 9 + 1) ∧
     (9 < 0 ∨ 4294967295 ≤ 9 → arr_length b' = 3 * 3) ∧
     (∀ k, arr_get b' k =
           if decide (k = 9) then Some (filled X)
           else if decide (0 ≤ k < 3 * 3)
                then arr_get (board_of (replicate 9 null)) k
                else None) ∧
     calculateWinner (Some b') 3 = None ∧
     scoreX s' = 0 ∧ scoreO s' = 0).
Proof.
  apply (play_out_of_bounds started3 9 (board_of (replicate 9 null))).
  - reflexivity.
  - reflexivity.
  - refute_range.
  - reflexivity.
Defined.

(** The two kinds of keys outside the grid, on a game just started: at
    index 9 the new array has 10 elements; at [2^32 - 1], which is not an
    array index, and at -1 the mark is a property and the array keeps its
    9 elements. *)
Example play_out_of_bounds_lengths :
  (λ i, s' ← play i started3;
        mret (Z.of_nat (length (history s')), currentMove s',
              (λ b', (arr_length b', arr_get b' i)) <$> last (history s')))
    <$> [9; 4294967295; -1]
  = [ Ok (2, 1, Some (10, Some (filled X)));
      Ok (2, 1, Some (9, Some (filled X)));
      Ok (2, 1, Some (9, Some (filled X))) ].
Proof. vm_compute. reflexivity. Qed.

(** C9 as stated fails: on a freshly started 3 by 3 game, a play at cell
    index 9, outside [[0, 9)], appends a board of length 10 with an X at
    index 9, and [currentMove] goes from 0 to 1. *)
Lemma play_out_of_bounds_not_noop :
  ¬ (0 ≤ 9 < boardSize started3 * boardSize started3) ∧
  ∃ s' b',
    play 9 started3 = Ok s' ∧
    history s' = history started3 ++ [b'] ∧
    arr_length b' = 10 ∧ arr_get b' 9 = Some (filled X) ∧
    length (history started3) = 1%nat ∧ length (history s') = 2%nat ∧
    currentMove started3 = 0 ∧ currentMove s' = 1 ∧
    s' ≠ started3.
Proof.
  split; [refute_range|].
  eexists _, _. split; [vm_compute; reflexivity|].
  split; [reflexivity|]. repeat (split; [reflexivity|]).
  intros Heq. apply (f_equal currentMove) in Heq. discriminate.
Qed.

(** ** The history is never empty *)

Lemma js_nth_last {A} (h : list A) (x : A) :
  js_nth (h ++ [x]) (Z.of_nat (length (h ++ [x])) - 1) = Some x.
Proof.
  rewrite length_app. simpl. rewrite js_nth_app_r by lia.
  replace (_ - _) with 0 by lia. done.
Qed.

Lemma handlePlay_active next s :
  currentSquares (handlePlay next s) = Some next.
Proof. unfold currentSquares, handlePlay. cbn [history currentMove]. apply js_nth_last. Qed.

Lemma handlePlay_head next s :
  0 ≤ currentMove s → history s ≠ [] →
  head (history (handlePlay next s)) = head (history s).
Proof.
  intros Hm Hne. rewrite handlePlay_history by done.
  destruct (history s) as [|b h]; [done|].
  replace (Z.to_nat (currentMove s + 1)) with (S (Z.to_nat (currentMove s)))
    by lia.
  done.
Qed.

Lemma fresh_history (s s' : state) :
  handleStart s = Ok s' ∨ restartGame s = Ok s' →
  ∃ b, history s' = [b] ∧ currentMove s' = 0 ∧
       arr_length b = boardSize s * boardSize s ∧
       ∀ k, arr_get b k =
            if decide (0 ≤ k < boardSize s * boardSize s) then Some null
            else None.
Proof.
  unfold handleStart, restartGame.
  destruct (Array_fill_null (boardSize s * boardSize s)) as [b|e] eqn:Hb;
    simpl; [|by intros [?|?]].
  apply Array_fill_null_inv in Hb as [Hlen Hget].
  intros [[= <-]|[= <-]]; by exists b.
Qed.

Lemma step_history_nonempty s e s' :
  step s e s' → history s ≠ [] → history s' ≠ [].
Proof.
  intros Hstep Hne. destruct Hstep as [s five _|s s' _ Hstart|s i s' _ Hplay
                                      |s v move _ _|s v s' _ _ Hrestart].
  - done.
  - destruct (fresh_history s s') as (b & -> & _); [by left|done].
  - destruct (play_Ok_inv s i s' Hplay) as [sq Hsq].
    destruct (play_cases s i sq Hsq) as [Hsame|Hnext];
      rewrite Hplay in *; simplify_eq; [done|].
    unfold handlePlay. simpl. by destruct (js_slice0 _ _).
  - done.
  - destruct (fresh_history s s') as (b & -> & _); [by right|done].
Qed.

Lemma reachable_history_nonempty s : reachable s → history s ≠ [].
Proof.
  induction 1 as [s Hinit|s e s' _ IH Hstep].
  - unfold initial in Hinit. simpl in Hinit. by injection Hinit as <-.
  - by apply (step_history_nonempty s e s').
Qed.

(** C10: the history is never empty.  [handleStart] and [restartGame] set
    it to a list of one board whose [N * N] cells are all [null];
    [handlePlay] leaves a non-empty history whose last element is the new
    board, with [currentMove] equal to its length minus 1, so that the
    active board is that last snapshot; [handlePlay] keeps index 0, for any
    [currentMove >= 0], hence at every click that reaches it.  So every
    state of a session has a non-empty history. *)
Theorem history_never_empty :
  (∀ s s', handleStart s = Ok s' ∨ restartGame s = Ok s' →
     ∃ b, history s' = [b] ∧
          arr_length b = boardSize s * boardSize s ∧
          ∀ k, arr_get b k =
               if decide (0 ≤ k < boardSize s * boardSize s) then Some null
               else None) ∧
  (∀ next s,
     history (handlePlay next s) ≠ [] ∧
     last (history (handlePlay next s)) = Some next ∧
     currentMove (handlePlay next s) =
       Z.of_nat (length (history (handlePlay next s))) - 1 ∧
     currentSquares (handlePlay next s) = Some next) ∧
  (∀ next s,
     0 ≤ currentMove s → history s ≠ [] →
     head (history (handlePlay next s)) = head (history s)) ∧
  (∀ s i s',
     play i s = Ok s' →
     s' = s ∨
     ∃ next, s' = handlePlay next s ∧ head (history s') = head (history s)) ∧
  (∀ s, reachable s → history s ≠ []).
Proof.
  split; [|split; [|split; [|split]]].
  - intros s s' Hfresh.
    destruct (fresh_history s s' Hfresh) as (b & Hh & _ & Hlen & Hget).
    by exists b.
  - intros next s. split; [|split; [|split]].
    + unfold handlePlay. simpl. by destruct (js_slice0 _ _).
    + unfold handlePlay. cbn [history]. apply last_snoc.
    + done.
    + apply handlePlay_active.
  - apply handlePlay_head.
  - intros s i s' Hplay.
    destruct (play_Ok_inv s i s' Hplay) as [sq Hsq].
    pose proof (currentSquares_bounds s sq Hsq) as Hm.
    destruct (play_cases s i sq Hsq) as [Hsame|Hnext];
      rewrite Hplay in *; simplify_eq; [by left|right].
    eexists. split; [done|]. apply handlePlay_head; [lia|].
    intros Hnil. rewrite Hnil in Hm. simpl in Hm. lia.
  - apply reachable_history_nonempty.
Qed.

Lemma history_never_empty_witness :
  history started3 ≠ [] ∧
  ∃ s', play 0 started3 = Ok s' ∧ history s' ≠ [] ∧
        (s' = started3 ∨
         ∃ next, s' = handlePlay next started3 ∧
                 head (history s') = head (history started3)).
Proof.
  destruct history_never_empty as (_ & _ & _ & Hplay & Hreach).
  assert (reachable started3) as Hstarted.
  { apply (reachable_step menu3 Start started3).
    - apply reachable_initial. vm_compute. reflexivity.
    - apply step_start; vm_compute; reflexivity. }
  split; [exact (Hreach started3 Hstarted)|].
  eexists. split; [vm_compute; reflexivity|]. split.
  - apply Hreach. apply (reachable_step started3 (Click 0)); [exact Hstarted|].
    apply step_click; vm_compute; reflexivity.
  - apply (Hplay started3 0). vm_compute. reflexivity.
Defined.

(** ** Sessions driven through the page *)

(** The boards that the program makes are boards of the specification. *)
Lemma board_wf_fresh N b : Array_fill_null (N * N) = Ok b → board_wf N b.
Proof.
  intros [Hlen Hget]%Array_fill_null_inv. split; [done|].
  intros k. rewrite Hget. case_decide; split; try done.
Qed.

Lemma board_wf_move N b i v :
  board_wf N b → 0 ≤ i < N * N → board_wf N (arr_set (arr_slice b) i v).
Proof.
  intros [Hlen Hget] Hi. split.
  - rewrite (arr_length_set_inside (arr_slice b)); [done|]. simpl. lia.
  - intros k. rewrite arr_get_set, arr_get_slice, Hlen.
    destruct (decide (k = i)) as [->|_]; [by split|].
    case_decide; [apply Hget|]. split; [by intros [? ?]|done].
Qed.

Lemma board_wf_dense N b : board_wf N b → dense b.
Proof. intros [Hlen Hget] k Hk. apply Hget. lia. Qed.

Lemma board_wf_outside N b k :
  board_wf N b → ¬ (0 ≤ k < N * N) → isEmpty b k.
Proof.
  intros [_ Hget] Hk. unfold isEmpty.
  destruct (arr_get b k) as [v|] eqn:Hv; [|done].
  destruct Hk. apply Hget. by rewrite Hv.
Qed.

Lemma js_nth_elem {A} (l : list A) k :
  0 ≤ k < Z.of_nat (length l) → ∃ x, js_nth l k = Some x ∧ x ∈ l.
Proof.
  intros Hk. unfold js_nth. destruct (Z.leb_spec 0 k); [|lia].
  destruct (lookup_lt_is_Some_2 l (Z.to_nat k)) as [x Hx]; [lia|].
  exists x. split; [done|]. by eapply list_elem_of_lookup_2.
Qed.

Lemma session_reachable s : session s → reachable s.
Proof.
  induction 1 as [s Hinit|s e s' _ IH _ Hstep].
  - by apply reachable_initial.
  - by apply (reachable_step s e).
Qed.

Lemma fresh_state_wf s s' :
  state_wf s → handleStart s = Ok s' ∨ restartGame s = Ok s' → state_wf s'.
Proof.
  intros (Hsize & _ & _) Hfresh.
  assert (boardSize s' = boardSize s ∧ currentMove s' = 0 ∧
          ∃ b, history s' = [b] ∧ board_wf (boardSize s) b)
    as (HN & Hm & b & Hh & Hb).
  { unfold handleStart, restartGame in Hfresh.
    destruct (Array_fill_null (boardSize s * boardSize s)) as [b|e] eqn:Hb;
      simpl in Hfresh; [|by destruct Hfresh].
    apply board_wf_fresh in Hb.
    destruct Hfresh as [[= <-]|[= <-]]; simpl; eauto. }
  split; [by rewrite HN|]. split; [by rewrite Hh|].
  intros _. rewrite Hm, Hh, HN. simpl. split; [lia|].
  by intros b' ->%list_elem_of_singleton.
Qed.

(** Through the page the state stays well formed. *)
Lemma session_state_wf s : session s → state_wf s.
Proof.
  induction 1 as [s Hinit|s e s' _ IH Hoffered Hstep].
  - unfold initial in Hinit. simpl in Hinit. injection Hinit as <-.
    split; [by left|]. split; [done|]. done.
  - destruct Hstep as [s five Hmenu|s s' _ Hstart|s i s' Hgame Hplay
                      |s v move Hgame _|s v s' _ _ Hrestart].
    + destruct IH as (_ & Hne & _). split; [by destruct five; auto|].
      split; [done|]. simpl. congruence.
    + apply (fresh_state_wf s); auto.
    + pose proof IH as (Hsize & Hne & Hgame').
      destruct (Hgame' Hgame) as [Hm Hboards].
      destruct (js_nth_elem (history s) (currentMove s) Hm) as (sq & Hsq & Hin).
      destruct (play_cases s i sq Hsq) as [Hsame|Hnext];
        rewrite Hplay in *; simplify_eq; [done|].
      split; [done|]. split; [unfold handlePlay; simpl; by destruct (js_slice0 _ _)|].
      intros _. rewrite handlePlay_currentMove, handlePlay_history by lia.
      split; [rewrite length_app; simpl; lia|].
      intros b [Hb%subseteq_take| ->%list_elem_of_singleton]%elem_of_app;
        [by apply Hboards|].
      apply board_wf_move; [by apply Hboards|done].
    + destruct IH as (Hsize & Hne & Hgame'). destruct (Hgame' Hgame) as [_ Hb].
      split; [done|]. split; [done|]. intros _. split; [exact Hoffered|done].
    + apply (fresh_state_wf s); auto.
Qed.

(** So, through the page, the game screen always renders: there is an
    active board, it is a board of the grid, and the status can be read. *)
Lemma session_renders s :
  session s → screen s = game →
  ∃ sq text, currentSquares s = Some sq ∧ board_wf (boardSize s) sq ∧
             status s = Ok text.
Proof.
  intros (_ & _ & Hwf)%session_state_wf Hgame.
  destruct (Hwf Hgame) as [Hm Hboards].
  destruct (js_nth_elem (history s) (currentMove s) Hm) as (sq & Hsq & Hin).
  exists sq. eexists. split; [done|]. split; [by apply Hboards|].
  by rewrite (status_text s sq).
Qed.

(** ** Whole games *)

(** The winning game of the specification: after the moves 0, 4, 1, 5, 2
    the status names X, the reported line is row 0, and X has one win. *)
Example win_scenario :
  playAll [0; 4; 1; 5; 2] started3 = Ok wonByX ∧
  status wonByX = Ok "Winner: X" ∧
  calculateWinner (currentSquares wonByX) 3 =
    Some {| player := X; line := [0; 1; 2] |} ∧
  scoreX wonByX = 1 ∧ scoreO wonByX = 0.
Proof. vm_compute. auto. Qed.

(** A game that fills the nine cells with no complete line is a draw, and
    no counter moves. *)
Example draw_scenario :
  playAll drawMoves started3 ≫= status = Ok "Draw!" ∧
  (s ← playAll drawMoves started3;
   mret (Z.of_nat (length (history s)), currentMove s, scoreX s, scoreO s))
  = Ok (10, 9, 0, 0).
Proof. split; vm_compute; reflexivity. Qed.

(** When two lines are complete at once, the row comes before the
    diagonal. *)
Example tie_break :
  calculateWinner
    (Some (board_of [filled X; filled X; filled X;
                     filled O; filled X; filled O;
                     filled O; filled O; filled X])) 3 =
    Some {| player := X; line := [0; 1; 2] |}.
Proof. vm_compute. reflexivity. Qed.

(** A negative cell index is not refused either: the mark becomes a
    property of the new array, whose length does not change. *)
Example play_negative_index :
  (s' ← play (-1) started3;
   mret (Z.of_nat (length (history s')), currentMove s',
         (λ b', (arr_length b', arr_get b' (-1))) <$> last (history s')))
  = Ok (2, 1, Some (9, Some (filled X))).
Proof. vm_compute. reflexivity. Qed.

(** * Further properties of the code *)

(** ** Who can win a move *)

Lemma head_elem {A} (l : list A) x : head l = Some x → x ∈ l.
Proof. destruct l; [done|]. intros [= ->]. by left. Qed.

(** A mark put on a board without winner can only complete lines through
    its own cell, and only for itself. *)
Lemma move_winner_is_mover sq i m N w :
  calculateWinner (Some sq) N = None →
  calculateWinner (Some (arr_set (arr_slice sq) i (filled m))) N = Some w →
  player w = m ∧ i ∈ line w.
Proof.
  intros Hnone Hw.
  set (next := arr_set (arr_slice sq) i (filled m)) in *.
  pose proof (scanLines_first next (generateWinningLines N)) as Hfirst.
  fold (calculateWinner (Some next) N) in Hfirst. rewrite Hw in Hfirst.
  destruct Hfirst as (before & after & Hlines & (first & Hhead & Hp & Hall) & _).
  assert (line w ∈ generateWinningLines N) as Hin
    by (rewrite Hlines; apply elem_of_app; right; by left).
  assert (∀ k, arr_get next k =
               if decide (k = i) then Some (filled m)
               else if decide (0 ≤ k < arr_length sq) then arr_get sq k
               else None) as Hget
    by (intros k; unfold next; by rewrite arr_get_set, arr_get_slice).
  destruct (decide (i ∈ line w)) as [Hi|Hi].
  - split; [|done]. pose proof (Hall i Hi) as Heq.
    rewrite Hp, Hget, decide_True in Heq by done. congruence.
  - exfalso. apply (proj1 (calculateWinner_none sq N) Hnone).
    assert (∀ idx, idx ∈ line w → arr_get sq idx = Some (filled (player w)))
      as Hsq.
    { intros idx Hidx. pose proof (Hall idx Hidx) as Heq.
      rewrite Hp, Hget, decide_False in Heq by (by intros ->).
      by case_decide. }
    exists (line w), (player w). split; [done|]. exists first.
    split; [done|]. pose proof (head_elem _ _ Hhead) as Hfirst.
    split; [by apply Hsq|]. intros idx Hidx. by rewrite !Hsq.
Qed.

(** What a click does when it passes the guard. *)
Lemma play_changed s i s' :
  play i s = Ok s' → s' ≠ s →
  ∃ sq, currentSquares s = Some sq ∧
        calculateWinner (Some sq) (boardSize s) = None ∧
        isEmpty sq i ∧
        s' = handlePlay
               (arr_set (arr_slice sq) i (filled (if xIsNext s then X else O)))
               s.
Proof.
  intros Hplay Hne. destruct (play_Ok_inv s i s' Hplay) as [sq Hsq].
  exists sq. split; [done|].
  assert (s' = handleClick (calculateWinner (Some sq) (boardSize s)) sq
                 (xIsNext s) handlePlay i s) as ->
    by (rewrite (play_handleClick s i sq Hsq) in Hplay; congruence).
  destruct (calculateWinner (Some sq) (boardSize s)) as [w|] eqn:Hw.
  { destruct Hne. apply handleClick_return. left. by eexists. }
  split; [done|]. unfold isEmpty.
  destruct (truthy (arr_get sq i)) eqn:Hfree.
  { destruct Hne. apply handleClick_return. by right. }
  split; [done|]. by apply handleClick_move.
Qed.

(** X1: when a play records a new board, a winner on that board is the
    player who has just moved (X on an even [currentMove], O on an odd
    one) and the winning line goes through the cell played; so a move of X
    never changes [scoreO] and a move of O never changes [scoreX]. *)
Theorem play_winner_is_mover (s : state) (cellIndex : Z) (s' : state) :
  play cellIndex s = Ok s' →
  s' ≠ s →
  let mover := if Z.even (currentMove s) then X else O in
  (∀ w, calculateWinner (currentSquares s') (boardSize s') = Some w →
        player w = mover ∧ cellIndex ∈ line w) ∧
  (mover = X → scoreO s' = scoreO s) ∧
  (mover = O → scoreX s' = scoreX s).
Proof.
  intros Hplay Hne mover.
  destruct (play_changed s cellIndex s' Hplay Hne)
    as (sq & Hsq & Hnone & Hfree & ->).
  set (next := arr_set _ _ _).
  rewrite handlePlay_active. change (boardSize (handlePlay next s)) with (boardSize s).
  assert (∀ w, calculateWinner (Some next) (boardSize s) = Some w →
               player w = mover ∧ cellIndex ∈ line w) as Hmover.
  { intros w Hw. unfold next in Hw. rewrite xIsNext_even in Hw.
    by apply (move_winner_is_mover sq cellIndex mover (boardSize s) w). }
  split; [exact Hmover|].
  pose proof (handlePlay_scores next s) as Hscores.
  destruct (calculateWinner (Some next) (boardSize s)) as [w|].
  - destruct (Hmover w eq_refl) as [Hp _]. rewrite Hp in Hscores.
    destruct mover; split; intros; try done; by destruct Hscores.
  - destruct Hscores. by split.
Qed.

Lemma play_winner_is_mover_witness :
  (∀ w, calculateWinner (currentSquares wonByX) (boardSize wonByX) = Some w →
        player w = X ∧ 2 ∈ line w) ∧
  (X = X → scoreO wonByX = scoreO moves0415) ∧
  (X = O → scoreX wonByX = scoreX moves0415).
Proof.
  apply (play_winner_is_mover moves0415 2 wonByX).
  - vm_compute. reflexivity.
  - intros Heq. apply (f_equal currentMove) in Heq. discriminate.
Defined.

(** ** What a play leaves alone *)

Lemma play_Ok_cases s i s' :
  play i s = Ok s' →
  ∃ sq, currentSquares s = Some sq ∧
        (s' = s ∨
         s' = handlePlay
                (arr_set (arr_slice sq) i (filled (if xIsNext s then X else O)))
                s).
Proof.
  intros Hplay. destruct (play_Ok_inv s i s' Hplay) as [sq Hsq].
  exists sq. split; [done|].
  destruct (play_cases s i sq Hsq) as [Hsame|Hnext];
    rewrite Hplay in *; simplify_eq; auto.
Qed.

Lemma play_boardSize s i s' :
  play i s = Ok s' → boardSize s' = boardSize s ∧ screen s' = screen s.
Proof. intros (sq & _ & [->| ->])%play_Ok_cases; done. Qed.

Lemma handlePlay_scores_le next s :
  scoreX s ≤ scoreX (handlePlay next s) ∧ scoreO s ≤ scoreO (handlePlay next s).
Proof.
  pose proof (handlePlay_scores next s) as Hscores.
  destruct (calculateWinner (Some next) (boardSize s)) as [[[|] l]|];
    cbn [player] in Hscores; lia.
Qed.

Lemma play_scores_le s i s' :
  play i s = Ok s' → scoreX s ≤ scoreX s' ∧ scoreO s ≤ scoreO s'.
Proof.
  intros (sq & _ & [->| ->])%play_Ok_cases; [lia|apply handlePlay_scores_le].
Qed.

Lemma js_nth_take {A} (h : list A) n k :
  k < Z.of_nat n → js_nth (take n h) k = js_nth h k.
Proof.
  intros Hk. unfold js_nth. destruct (0 <=? k) eqn:Hpos; [|done].
  apply lookup_take_lt. lia.
Qed.

Lemma handlePlay_prefix next s k :
  0 ≤ k ≤ currentMove s → currentMove s < Z.of_nat (length (history s)) →
  js_nth (history (handlePlay next s)) k = js_nth (history s) k.
Proof.
  intros Hk Hm. rewrite handlePlay_history by lia.
  rewrite js_nth_app_l by (rewrite length_take; lia).
  apply js_nth_take. lia.
Qed.

(** X2: a play never changes the grid size or the screen, moves
    [currentMove] forward by at most one, and never rewrites the snapshots
    up to the active board: the positions [0 .. currentMove] of the history
    read the same before and after, whether the click was accepted or
    not. *)
Theorem play_frame (s : state) (cellIndex : Z) (s' : state) :
  play cellIndex s = Ok s' →
  boardSize s' = boardSize s ∧
  screen s' = screen s ∧
  currentMove s ≤ currentMove s' ≤ currentMove s + 1 ∧
  ∀ k, 0 ≤ k ≤ currentMove s →
       js_nth (history s') k = js_nth (history s) k.
Proof.
  intros Hplay. destruct (play_boardSize s cellIndex s' Hplay) as [HN Hscreen].
  split; [done|]. split; [done|].
  destruct (play_Ok_cases s cellIndex s' Hplay) as (sq & Hsq & [->| ->]).
  - split; [lia|done].
  - pose proof (currentSquares_bounds s sq Hsq) as Hm. split.
    + rewrite handlePlay_currentMove, handlePlay_history by lia.
      rewrite length_app, length_take. simpl. lia.
    + intros k Hk. apply handlePlay_prefix; lia.
Qed.

Lemma play_frame_witness :
  boardSize wonByX = boardSize moves0415 ∧
  screen wonByX = screen moves0415 ∧
  currentMove moves0415 ≤ currentMove wonByX ≤ currentMove moves0415 + 1 ∧
  ∀ k, 0 ≤ k ≤ currentMove moves0415 →
       js_nth (history wonByX) k = js_nth (history moves0415) k.
Proof. apply (play_frame moves0415 2 wonByX). vm_compute. reflexivity. Defined.

(** ** Sessions: screens, sizes and scores *)

Lemma fresh_frame s s' :
  handleStart s = Ok s' ∨ restartGame s = Ok s' →
  scoreX s' = scoreX s ∧ scoreO s' = scoreO s ∧ boardSize s' = boardSize s ∧
  (screen s = game → screen s' = game).
Proof.
  unfold handleStart, restartGame.
  destruct (Array_fill_null (boardSize s * boardSize s)) as [b|e];
    simpl; [|by intros [?|?]].
  intros [[= <-]|[= <-]]; done.
Qed.

Lemma step_frame s e s' :
  step s e s' →
  scoreX s ≤ scoreX s' ∧ scoreO s ≤ scoreO s' ∧
  (screen s = game → screen s' = game ∧ boardSize s' = boardSize s).
Proof.
  intros [s0 five Hmenu|s0 s1 Hmenu Hstart|s0 i s1 Hgame Hplay
         |s0 v move Hgame _|s0 v s1 Hgame _ Hrestart].
  - simpl. split; [lia|]. split; [lia|]. congruence.
  - destruct (fresh_frame s0 s1) as (HX & HO & HN & Hscreen); [by left|].
    split; [lia|]. split; [lia|]. auto.
  - destruct (play_scores_le s0 i s1 Hplay) as [HX HO].
    destruct (play_boardSize s0 i s1 Hplay) as [HN Hscreen].
    split; [done|]. split; [done|]. intros _. split; congruence.
  - simpl. split; [lia|]. split; [lia|]. done.
  - destruct (fresh_frame s0 s1) as (HX & HO & HN & Hscreen); [by right|].
    split; [lia|]. split; [lia|]. auto.
Qed.

Lemma playAll_cons i moves s :
  playAll (i :: moves) s = play i s ≫= playAll moves.
Proof.
  unfold playAll. simpl. destruct (play i s) as [s1|e]; [done|]. simpl.
  induction moves as [|i' moves IH]; [done|]. simpl. apply IH.
Qed.

(** A sequence of accepted clicks on the game screen is a sequence of
    events. *)
Lemma playAll_steps moves s s' :
  screen s = game → playAll moves s = Ok s' → steps s s'.
Proof.
  revert s. induction moves as [|i moves IH]; intros s Hgame Hall.
  - injection Hall as <-. apply rtc_refl.
  - rewrite playAll_cons in Hall.
    destruct (play i s) as [s1|e] eqn:Hplay; [|done]. simpl in Hall.
    apply (rtc_l _ _ s1).
    + exists (Click i). by apply step_click.
    + apply IH; [|done]. destruct (play_boardSize s i s1 Hplay). congruence.
Qed.

(** X3: over any number of events, no score counter ever decreases (a
    restart and a jump leave them as they are), and once the game screen
    shows, the page stays on it with the same grid size.  The counters of
    every reachable state are non-negative. *)
Theorem steps_frame :
  (∀ s s', steps s s' →
     scoreX s ≤ scoreX s' ∧ scoreO s ≤ scoreO s' ∧
     (screen s = game → screen s' = game ∧ boardSize s' = boardSize s)) ∧
  (∀ s move, scoreX (jumpTo move s) = scoreX s ∧
             scoreO (jumpTo move s) = scoreO s) ∧
  (∀ s, reachable s → 0 ≤ scoreX s ∧ 0 ≤ scoreO s).
Proof.
  split; [|split].
  - intros s s' Hsteps.
    induction Hsteps as [s|s s1 s' [e Hstep] _ IH].
    + split; [lia|]. split; [lia|]. done.
    + destruct (step_frame s e s1 Hstep) as (HX & HO & Hgame).
      destruct IH as (HX' & HO' & Hgame').
      split; [lia|]. split; [lia|]. intros Hs.
      destruct (Hgame Hs) as [Hs1 HN]. destruct (Hgame' Hs1) as [Hs' HN'].
      split; [done|congruence].
  - done.
  - induction 1 as [s Hinit|s e s' _ IH Hstep].
    + unfold initial in Hinit. simpl in Hinit. by injection Hinit as <-.
    + destruct (step_frame s e s' Hstep) as (HX & HO & _). lia.
Qed.

Lemma steps_frame_witness :
  scoreX started3 ≤ scoreX wonByX ∧ scoreO started3 ≤ scoreO wonByX ∧
  (screen started3 = game →
   screen wonByX = game ∧ boardSize wonByX = boardSize started3).
Proof.
  apply (proj1 steps_frame started3 wonByX).
  apply (playAll_steps [0; 4; 1; 5; 2]); [reflexivity|].
  vm_compute. reflexivity.
Defined.

(** ** Sessions through the page: the history is a game *)

Lemma session_playAll moves s s' :
  session s → screen s = game →
  Forall (λ i, 0 ≤ i < boardSize s * boardSize s) moves →
  playAll moves s = Ok s' → session s'.
Proof.
  revert s. induction moves as [|i moves IH]; intros s Hs Hgame Hmoves Hall.
  - by injection Hall as <-.
  - rewrite playAll_cons in Hall.
    destruct (play i s) as [s1|e] eqn:Hplay; [|done]. simpl in Hall.
    apply Forall_cons in Hmoves as [Hi Hmoves].
    destruct (play_boardSize s i s1 Hplay) as [HN Hscreen].
    apply (IH s1); [|congruence|by rewrite HN|done].
    apply (session_step s (Click i) s1); [done|exact Hi|by apply step_click].
Qed.

Example session_started3 : session started3.
Proof.
  apply (session_step menu3 Start started3).
  - apply session_initial. vm_compute. reflexivity.
  - exact I.
  - apply step_start; vm_compute; reflexivity.
Qed.

Example session_moves0415 : session moves0415.
Proof.
  apply (session_playAll [0; 4; 1; 5] started3);
    [apply session_started3|reflexivity| |vm_compute; reflexivity].
  repeat constructor; vm_compute; try discriminate; reflexivity.
Qed.

Example session_wonByX : session wonByX.
Proof.
  apply (session_step moves0415 (Click 2) wonByX).
  - apply session_moves0415.
  - vm_compute. split; [discriminate|reflexivity].
  - apply step_click; vm_compute; reflexivity.
Qed.

(** The move that the click handler makes on a board of the grid. *)
Lemma oneMove_play N (k : nat) sq i :
  board_wf N sq → 0 ≤ i < N * N → isEmpty sq i →
  oneMove N k sq (arr_set (arr_slice sq) i (filled (if Nat.even k then X else O))).
Proof.
  intros [Hlen Hget] Hi Hfree. exists i. split; [done|]. split; [|split].
  - destruct (proj2 (Hget i) Hi) as [v Hv]. unfold isEmpty in Hfree.
    rewrite Hv in *. by destruct v.
  - by rewrite arr_get_set, decide_True.
  - intros j Hj. rewrite arr_get_set, decide_False, arr_get_slice, Hlen by done.
    case_decide as Hin; [done|]. symmetry.
    destruct (arr_get sq j) as [v|] eqn:Hv; [|done].
    destruct Hin. apply Hget. by rewrite Hv.
Qed.

Lemma history_chain_fresh N b :
  (∀ k, arr_get b k = if decide (0 ≤ k < N * N) then Some null else None) →
  history_chain N [b].
Proof.
  intros Hget. split.
  - exists b. split; [done|]. intros k Hk. by rewrite Hget, decide_True.
  - intros k b1 b2 _ Hnone. by destruct k.
Qed.

Lemma history_chain_snoc N h n b next :
  history_chain N h → h !! n = Some b → oneMove N n b next →
  history_chain N (take (S n) h ++ [next]).
Proof.
  intros [(b0 & Hb0 & Hnull) Hchain] Hn Hmove.
  assert (n < length h)%nat as Hlt by (by eapply lookup_lt_Some).
  assert (length (take (S n) h) = S n) as Hlen by (rewrite length_take; lia).
  split.
  - exists b0. split; [|done].
    rewrite lookup_app_l by lia. rewrite lookup_take_lt by lia. done.
  - intros k b1 b2 Hk HSk.
    destruct (decide (S k < S n)%nat) as [Hin|Hout].
    + rewrite lookup_app_l, lookup_take_lt in Hk by lia.
      rewrite lookup_app_l, lookup_take_lt in HSk by lia.
      by apply (Hchain k).
    + assert (S k = S n) as [= ->].
      { apply lookup_lt_Some in HSk. rewrite length_app, Hlen in HSk.
        simpl in HSk. lia. }
      rewrite lookup_app_l, lookup_take_lt in Hk by lia.
      rewrite lookup_app_r, Hlen, Nat.sub_diag in HSk by lia.
      simpl in HSk. by simplify_eq.
Qed.

Lemma lookup_js_nth {A} (h : list A) (m : Z) x :
  js_nth h m = Some x → h !! Z.to_nat m = Some x ∧ 0 ≤ m.
Proof.
  unfold js_nth. destruct (Z.leb_spec 0 m); [|done]. by split.
Qed.

Lemma even_of_nat (n : nat) : Z.even (Z.of_nat n) = Nat.even n.
Proof.
  destruct (Nat.even n) eqn:Heven.
  - apply Nat.even_spec in Heven as [k ->]. apply Z.even_spec.
    exists (Z.of_nat k). lia.
  - destruct (Z.even (Z.of_nat n)) eqn:Heven'; [|done].
    apply Z.even_spec in Heven' as [k Hk].
    assert (Nat.even n = true) as Hn; [|congruence].
    apply Nat.even_spec. exists (Z.to_nat k). lia.
Qed.

(** Through the page, the history of the game screen is a game. *)
Lemma session_history_chain s :
  session s → screen s = game → history_chain (boardSize s) (history s).
Proof.
  induction 1 as [s Hinit|s e s' Hs IH Hoffered Hstep].
  - unfold initial in Hinit. simpl in Hinit. by injection Hinit as <-.
  - pose proof (session_state_wf s Hs) as (Hsize & Hne & Hwf).
    destruct Hstep as [s five Hmenu|s s' _ Hstart|s i s' Hgame Hplay
                      |s v move Hgame _|s v s' _ _ Hrestart].
    + simpl. congruence.
    + intros _. destruct (fresh_history s s') as (b & -> & _ & _ & Hget);
        [by left|].
      destruct (fresh_frame s s') as (_ & _ & -> & _); [by left|].
      by apply history_chain_fresh.
    + intros _. destruct (Hwf Hgame) as [Hm Hboards].
      destruct (decide (s' = s)) as [->|Hne']; [by apply IH|].
      destruct (play_changed s i s' Hplay Hne')
        as (sq & Hsq & Hnone & Hfree & ->).
      apply lookup_js_nth in Hsq as [Hsq Hpos].
      rewrite handlePlay_history by done.
      change (boardSize (handlePlay _ s)) with (boardSize s).
      replace (Z.to_nat (currentMove s + 1)) with (S (Z.to_nat (currentMove s)))
        by lia.
      apply (history_chain_snoc _ _ _ sq); [by apply IH|done|].
      rewrite xIsNext_even.
      replace (Z.even (currentMove s)) with (Nat.even (Z.to_nat (currentMove s))).
      * apply oneMove_play; [|exact Hoffered|done].
        apply Hboards. by eapply list_elem_of_lookup_2.
      * rewrite <- even_of_nat. by rewrite Z2Nat.id.
    + simpl. apply IH.
    + intros _. destruct (fresh_history s s') as (b & -> & _ & _ & Hget);
        [by right|].
      destruct (fresh_frame s s') as (_ & _ & -> & _); [by right|].
      by apply history_chain_fresh.
Qed.

(** X4: in every state of a session driven through the page, the grid
    size is 3 or 5 (so exactly one radio button of the menu is checked)
    and the history is not empty; on the game screen [currentMove] points
    into the history, every snapshot is a board of [N * N] cells without
    holes or other properties, the status can be read, and a click on any
    square returns a state: no render and no handler throws. *)
Theorem session_invariant (s : state) :
  session s →
  (boardSize s = 3 ∨ boardSize s = 5) ∧
  xorb (checked3 (StartMenu (boardSize s)))
       (checked5 (StartMenu (boardSize s))) = true ∧
  history s ≠ [] ∧
  (screen s = game →
   0 ≤ currentMove s < Z.of_nat (length (history s)) ∧
   (∀ b, b ∈ history s → board_wf (boardSize s) b ∧ dense b) ∧
   (∃ text, status s = Ok text) ∧
   ∀ i, ∃ s', play i s = Ok s').
Proof.
  intros Hs. pose proof (session_state_wf s Hs) as (Hsize & Hne & Hwf).
  split; [done|]. split; [by destruct Hsize as [-> | ->]|]. split; [done|].
  intros Hgame. destruct (Hwf Hgame) as [Hm Hboards]. split; [done|].
  split; [|split].
  - intros b Hb. split; [by apply Hboards|].
    by apply (board_wf_dense (boardSize s)), Hboards.
  - destruct (session_renders s Hs Hgame) as (sq & text & _ & _ & Hstatus).
    by exists text.
  - intros i.
    destruct (js_nth_elem (history s) (currentMove s) Hm) as (sq & Hsq & _).
    rewrite (play_handleClick s i sq Hsq). by eexists.
Qed.

Lemma session_invariant_witness :
  (boardSize wonByX = 3 ∨ boardSize wonByX = 5) ∧
  xorb (checked3 (StartMenu (boardSize wonByX)))
       (checked5 (StartMenu (boardSize wonByX))) = true ∧
  history wonByX ≠ [] ∧
  (screen wonByX = game →
   0 ≤ currentMove wonByX < Z.of_nat (length (history wonByX)) ∧
   (∀ b, b ∈ history wonByX → board_wf (boardSize wonByX) b ∧ dense b) ∧
   (∃ text, status wonByX = Ok text) ∧
   ∀ i, ∃ s', play i wonByX = Ok s').
Proof. apply (session_invariant wonByX). apply session_wonByX. Defined.

(** X5: through the page, the history of the game screen is a game: its
    first snapshot is the board whose [N * N] cells are all [null], and
    each snapshot [k + 1] is snapshot [k] with exactly one cell of the grid
    changed, from [null] to the mark of the player of move [k] (X for an
    even [k], O for an odd one). *)
Theorem session_history_is_game (s : state) :
  session s →
  screen s = game →
  (∃ b0, history s !! 0%nat = Some b0 ∧
         ∀ i, 0 ≤ i < boardSize s * boardSize s → arr_get b0 i = Some null) ∧
  ∀ (k : nat) b b',
    history s !! k = Some b → history s !! S k = Some b' →
    ∃ i, 0 ≤ i < boardSize s * boardSize s ∧
         arr_get b i = Some null ∧
         arr_get b' i = Some (filled (if Nat.even k then X else O)) ∧
         ∀ j, j ≠ i → arr_get b' j = arr_get b j.
Proof. intros Hs Hgame. by apply session_history_chain. Qed.

Lemma session_history_is_game_witness :
  (∃ b0, history wonByX !! 0%nat = Some b0 ∧
         ∀ i, 0 ≤ i < boardSize wonByX * boardSize wonByX →
              arr_get b0 i = Some null) ∧
  ∀ (k : nat) b b',
    history wonByX !! k = Some b → history wonByX !! S k = Some b' →
    ∃ i, 0 ≤ i < boardSize wonByX * boardSize wonByX ∧
         arr_get b i = Some null ∧
         arr_get b' i = Some (filled (if Nat.even k then X else O)) ∧
         ∀ j, j ≠ i → arr_get b' j = arr_get b j.
Proof.
  apply (session_history_is_game wonByX); [apply session_wonByX|reflexivity].
Defined.

(** ** Counting the marks *)

Lemma range_NoDup n : NoDup (range n).
Proof.
  unfold range. apply NoDup_fmap_2; [apply Nat2Z.inj'|apply NoDup_seq].
Qed.

Section Filter.
Context {A : Type} `{EqDecision A}.

Lemma filter_ext_elem (f g : A → bool) (l : list A) :
  (∀ x, x ∈ l → g x = f x) → List.filter g l = List.filter f l.
Proof.
  induction l as [|x l IH]; intros Hfg; [done|]. simpl.
  rewrite (Hfg x) by (by left). rewrite IH; [done|].
  intros y Hy. apply Hfg. by right.
Qed.

(** Turning the test on at one element of a list without repetition adds
    one to the count. *)
Lemma filter_flip_length (f g : A → bool) (l : list A) i :
  NoDup l → i ∈ l → f i = false → g i = true →
  (∀ j, j ≠ i → g j = f j) →
  length (List.filter g l) = S (length (List.filter f l)).
Proof.
  intros Hnd Hi Hf Hg Hsame. induction Hnd as [|x l Hx Hnd IH].
  - by apply elem_of_nil in Hi.
  - simpl. destruct (decide (x = i)) as [->|Hne].
    + rewrite Hf, Hg. simpl. f_equal. f_equal.
      apply filter_ext_elem. intros y Hy. apply Hsame. by intros ->.
    + rewrite (Hsame x Hne).
      apply elem_of_cons in Hi as [->|Hi]; [done|].
      destruct (f x); simpl; by rewrite IH.
Qed.

Lemma filter_length_all (f : A → bool) (l : list A) :
  length (List.filter f l) = length l ↔ ∀ x, x ∈ l → f x = true.
Proof.
  induction l as [|x l IH]; simpl.
  - split; [|done]. intros _ x Hx. by apply elem_of_nil in Hx.
  - pose proof (List.filter_length_le f l) as Hle.
    destruct (f x) eqn:Hfx; simpl.
    + split.
      * intros Hlen y [->|Hy]%elem_of_cons; [done|]. apply IH; [lia|done].
      * intros Hall. f_equal. apply IH. intros y Hy. apply Hall. by right.
    + split; [lia|]. intros Hall. rewrite Hall in Hfx by (by left). done.
Qed.
End Filter.

Lemma marks_oneMove N k b b' :
  board_wf N b → board_wf N b' → oneMove N k b b' →
  length (marks b') = S (length (marks b)).
Proof.
  intros [Hlen _] [Hlen' _] (i & Hi & Hnull & Hmark & Hsame).
  unfold marks. rewrite Hlen, Hlen'.
  apply (filter_flip_length _ _ _ i).
  - apply range_NoDup.
  - by apply range_elem.
  - by rewrite Hnull.
  - by rewrite Hmark.
  - intros j Hj. by rewrite Hsame.
Qed.

Lemma marks_bound N b : board_wf N b → Z.of_nat (length (marks b)) ≤ N * N.
Proof.
  intros [Hlen _]. unfold marks.
  pose proof (List.filter_length_le (λ k, truthy (arr_get b k))
                (range (arr_length b))) as Hle.
  rewrite range_length in Hle. rewrite Hlen in *.
  assert (0 ≤ N * N) by nia. lia.
Qed.

(** In a game, snapshot [k] holds [k] marks. *)
Lemma history_chain_marks N h :
  history_chain N h → (∀ b, b ∈ h → board_wf N b) →
  ∀ k b, h !! k = Some b → length (marks b) = k.
Proof.
  intros [(b0 & Hb0 & Hnull) Hchain] Hwf k.
  induction k as [|k IH]; intros b Hk.
  - assert (b = b0) as -> by congruence.
    destruct (Hwf b0) as [Hlen _]; [by eapply list_elem_of_lookup_2|].
    unfold marks. rewrite Hlen.
    assert (List.filter (λ k, truthy (arr_get b0 k)) (range (N * N)) =
            List.filter (λ _, false) (range (N * N))) as ->.
    { apply filter_ext_elem. intros x Hx%range_elem. by rewrite Hnull. }
    by induction (range (N * N)).
  - destruct (lookup_lt_is_Some_2 h k) as [b1 Hb1].
    { apply lookup_lt_Some in Hk. lia. }
    rewrite (marks_oneMove N k b1 b), (IH b1 Hb1); [done| | |by apply (Hchain k)].
    + apply Hwf. by eapply list_elem_of_lookup_2.
    + apply Hwf. by eapply list_elem_of_lookup_2.
Qed.

(** X6: through the page, snapshot [k] of the history holds exactly [k]
    marks; hence a game has at most [N * N] moves: the history never holds
    more than [N * N + 1] snapshots and [currentMove] never exceeds
    [N * N]. *)
Theorem session_marks (s : state) :
  session s →
  screen s = game →
  (∀ (k : nat) b, history s !! k = Some b → length (marks b) = k) ∧
  Z.of_nat (length (history s)) ≤ boardSize s * boardSize s + 1 ∧
  currentMove s ≤ boardSize s * boardSize s.
Proof.
  intros Hs Hgame.
  pose proof (session_state_wf s Hs) as (_ & Hne & Hwf).
  destruct (Hwf Hgame) as [Hm Hboards].
  pose proof (history_chain_marks _ _ (session_history_chain s Hs Hgame) Hboards)
    as Hmarks.
  split; [exact Hmarks|].
  assert (Z.of_nat (length (history s)) ≤ boardSize s * boardSize s + 1);
    [|lia].
  destruct (lookup_lt_is_Some_2 (history s) (length (history s) - 1))
    as [b Hb]; [lia|].
  pose proof (Hmarks _ b Hb) as Hcount.
  assert (board_wf (boardSize s) b) as Hb'
    by (apply Hboards; by eapply list_elem_of_lookup_2).
  pose proof (marks_bound (boardSize s) b Hb') as Hbound.
  lia.
Qed.

Lemma session_marks_witness :
  (∀ (k : nat) b, history wonByX !! k = Some b → length (marks b) = k) ∧
  Z.of_nat (length (history wonByX)) ≤ boardSize wonByX * boardSize wonByX + 1 ∧
  currentMove wonByX ≤ boardSize wonByX * boardSize wonByX.
Proof. apply (session_marks wonByX); [apply session_wonByX|reflexivity]. Defined.

(** On a board of the grid, [every] cell differs from [null] exactly when
    all the [N * N] cells hold a mark. *)
Lemma arr_every_full N b :
  board_wf N b →
  arr_every (λ val, bool_decide (val ≠ null)) b = true ↔
  length (marks b) = Z.to_nat (N * N).
Proof.
  intros [Hlen Hget]. unfold marks. rewrite <- (range_length (N * N)), Hlen.
  rewrite filter_length_all, arr_every_true, Hlen. split.
  - intros Hall k Hk%range_elem. destruct (proj2 (Hget k) Hk) as [v Hv].
    specialize (Hall k Hk v Hv). apply bool_decide_eq_true in Hall.
    rewrite Hv. by destruct v.
  - intros Hall k Hk v Hv. apply bool_decide_eq_true. intros ->.
    specialize (Hall k (proj2 (range_elem _ _) Hk)). by rewrite Hv in Hall.
Qed.

(** X7: through the page, the status line is the draw message exactly when
    the active board has no winner and [currentMove] is [N * N]: a draw is
    announced after the last cell is filled, never earlier. *)
Theorem session_draw (s : state) :
  session s →
  screen s = game →
  status s = Ok "Draw!" ↔
  calculateWinner (currentSquares s) (boardSize s) = None ∧
  currentMove s = boardSize s * boardSize s.
Proof.
  intros Hs Hgame.
  pose proof (session_state_wf s Hs) as (_ & _ & Hwf).
  destruct (Hwf Hgame) as [Hm Hboards].
  destruct (js_nth_elem (history s) (currentMove s) Hm) as (sq & Hsq & Hin).
  pose proof (history_chain_marks _ _ (session_history_chain s Hs Hgame) Hboards)
    as Hmarks.
  pose proof Hsq as [Hsq' _]%lookup_js_nth.
  pose proof (Hmarks _ sq Hsq') as Hcount.
  pose proof (arr_every_full (boardSize s) sq (Hboards sq Hin)) as Hfull.
  assert (0 ≤ boardSize s * boardSize s) as Hsquare by nia.
  unfold currentSquares in *. rewrite (status_text s sq Hsq).
  unfold currentSquares. rewrite Hsq. unfold statusText.
  destruct (calculateWinner (Some sq) (boardSize s)) as [w|].
  { split; [|by intros [? _]]. destruct (player w); simpl; discriminate. }
  destruct (arr_every _ sq).
  - split; [intros _|done]. split; [done|].
    pose proof (proj1 Hfull eq_refl). lia.
  - split; [destruct (xIsNext s); simpl; discriminate|].
    intros [_ Hmove]. assert (false = true); [|done].
    apply Hfull. lia.
Qed.

Lemma session_draw_witness :
  status wonByX = Ok "Draw!" ↔
  calculateWinner (currentSquares wonByX) (boardSize wonByX) = None ∧
  currentMove wonByX = boardSize wonByX * boardSize wonByX.
Proof. apply (session_draw wonByX); [apply session_wonByX|reflexivity]. Defined.

(** ** Replaying a winning move *)

Lemma jumpTo_play_move s k i sq :
  js_nth (history s) k = Some sq →
  calculateWinner (Some sq) (boardSize s) = None →
  isEmpty sq i →
  let next := arr_set (arr_slice sq) i (filled (if Z.even k then X else O)) in
  play i (jumpTo k s) = Ok (handlePlay next (jumpTo k s)) ∧
  js_nth (history (handlePlay next (jumpTo k s))) k = Some sq.
Proof.
  intros Hsq Hnone Hfree next.
  destruct (play_move (jumpTo k s) i sq Hsq Hnone Hfree) as (Hplay & _).
  rewrite xIsNext_even in Hplay. split; [exact Hplay|].
  pose proof (js_nth_Some _ _ _ Hsq) as Hk.
  rewrite handlePlay_prefix; [done|simpl; lia|simpl; lia].
Qed.

(** X8: the counters count winning moves, not games.  When the board at
    some move [k] has no winner and the play of an empty cell there
    completes a line, then jumping back to [k] and playing that cell again,
    [n] times over, succeeds each time and adds [n] to the counter of the
    player of move [k] (X for an even [k]), leaving the other counter as it
    was. *)
Theorem replay_counts_again (s : state) (k cellIndex : Z) (sq : jsarray)
    (n : nat) :
  js_nth (history s) k = Some sq →
  calculateWinner (Some sq) (boardSize s) = None →
  isEmpty sq cellIndex →
  is_Some (calculateWinner
             (Some (arr_set (arr_slice sq) cellIndex
                      (filled (if Z.even k then X else O))))
             (boardSize s)) →
  ∃ s', replay n k cellIndex s = Ok s' ∧
        scoreX s' = scoreX s + (if Z.even k then Z.of_nat n else 0) ∧
        scoreO s' = scoreO s + (if Z.even k then 0 else Z.of_nat n).
Proof.
  intros Hsq Hnone Hfree [w Hw].
  set (next := arr_set (arr_slice sq) cellIndex
                 (filled (if Z.even k then X else O))) in *.
  destruct (move_winner_is_mover sq cellIndex _ _ w Hnone Hw) as [Hp _].
  assert (∃ s', replay n k cellIndex s = Ok s' ∧
                js_nth (history s') k = Some sq ∧
                boardSize s' = boardSize s ∧
                scoreX s' = scoreX s + (if Z.even k then Z.of_nat n else 0) ∧
                scoreO s' = scoreO s + (if Z.even k then 0 else Z.of_nat n))
    as (s' & Hreplay & _ & _ & Hscores); [|by exists s'].
  induction n as [|n (s1 & Hreplay & Hsq1 & HN & HX & HO)].
  - exists s. repeat split; try done; destruct (Z.even k); simpl; lia.
  - simpl. rewrite Hreplay. simpl.
    rewrite <- HN in Hnone, Hw.
    destruct (jumpTo_play_move s1 k cellIndex sq Hsq1 Hnone Hfree)
      as [Hplay Hkept].
    fold next in Hplay, Hkept.
    exists (handlePlay next (jumpTo k s1)). split; [done|]. split; [done|].
    split; [done|].
    pose proof (handlePlay_scores next (jumpTo k s1)) as Hscores.
    change (boardSize (jumpTo k s1)) with (boardSize s1) in Hscores.
    rewrite Hw, Hp in Hscores.
    change (scoreX (jumpTo k s1)) with (scoreX s1) in Hscores.
    change (scoreO (jumpTo k s1)) with (scoreO s1) in Hscores.
    destruct (Z.even k); destruct Hscores as [-> ->]; lia.
Qed.

Lemma replay_counts_again_witness :
  ∃ s', replay 3 4 2 wonByX = Ok s' ∧
        scoreX s' = scoreX wonByX + (if Z.even 4 then Z.of_nat 3 else 0) ∧
        scoreO s' = scoreO wonByX + (if Z.even 4 then 0 else Z.of_nat 3).
Proof.
  apply (replay_counts_again wonByX 4 2
           (board_of [filled X; filled X; null; null;
                      filled O; filled O; null; null; null]) 3).
  - reflexivity.
  - vm_compute. reflexivity.
  - reflexivity.
  - vm_compute. eexists. reflexivity.
Defined.

(** ** The geometry of the candidate lines *)

(** A cell index determines its row and its column. *)
Lemma cell_inj N r c r' c' :
  0 ≤ c < N → 0 ≤ c' < N → r * N + c = r' * N + c' → r = r' ∧ c = c'.
Proof.
  intros Hc Hc' Heq.
  assert (r = r') as <-; [|lia].
  rewrite (Z.div_unique (r * N + c) N r c), (Z.div_unique (r * N + c) N r' c');
    [done|lia|lia|lia|lia].
Qed.

Lemma cell_div_rem N r c :
  0 ≤ r → 0 ≤ c < N →
  (r * N + c) `div` N = r ∧ Z.rem (r * N + c) N = c.
Proof.
  intros Hr Hc. split.
  - symmetry. apply (Z.div_unique _ _ _ c); lia.
  - rewrite Z.rem_mod_nonneg by nia.
    symmetry. apply (Z.mod_unique _ _ r); lia.
Qed.

Lemma range_fmap_NoDup (f : Z → Z) n :
  (∀ x y, 0 ≤ x < n → 0 ≤ y < n → f x = f y → x = y) → NoDup (f <$> range n).
Proof.
  intros Hinj. apply NoDup_fmap_2_strong; [|apply range_NoDup].
  intros x y Hx%range_elem Hy%range_elem. by apply Hinj.
Qed.

Lemma specLines_NoDup N l : l ∈ specLines N → NoDup l.
Proof.
  rewrite specLines_elem.
  intros [(r & Hr & ->)|[(c & Hc & ->)|[->| ->]]];
    apply range_fmap_NoDup; intros x y Hx Hy Heq; nia.
Qed.

Lemma specLines_row N r :
  0 ≤ r < N → js_nth (specLines N) r = Some (rowLine N r).
Proof.
  intros Hr. unfold specLines.
  rewrite js_nth_app_l by (rewrite length_fmap, range_length; lia).
  by rewrite js_nth_fmap, range_lookup.
Qed.

Lemma specLines_col N c :
  0 ≤ c < N → js_nth (specLines N) (N + c) = Some (colLine N c).
Proof.
  intros Hc. unfold specLines.
  rewrite js_nth_app_r by (rewrite length_fmap, range_length; lia).
  rewrite length_fmap, range_length.
  replace (N + c - Z.of_nat (Z.to_nat N)) with c by lia.
  rewrite js_nth_app_l by (rewrite length_fmap, range_length; lia).
  by rewrite js_nth_fmap, range_lookup.
Qed.

Lemma specLines_main N :
  0 ≤ N → js_nth (specLines N) (2 * N) = Some (mainDiagonal N).
Proof.
  intros HN. replace (2 * N) with (2 * N + 0) by lia.
  by rewrite entry_diagonals.
Qed.

Lemma specLines_anti N :
  0 ≤ N → js_nth (specLines N) (2 * N + 1) = Some (antiDiagonal N).
Proof. intros HN. by rewrite entry_diagonals. Qed.

(** X9: the lines of [generateWinningLines] are the geometric lines of
    the grid.  No line lists a cell twice, and for the cell in row [r] and
    column [c] of an [N] by [N] grid: it is on line [r'] (a row) exactly
    when [r = r'], on line [N + c'] (a column) exactly when [c = c'], on
    line [2N] exactly when [r = c], and on line [2N + 1] exactly when
    [r + c = N - 1]. *)
Theorem generateWinningLines_geometry (N r c : Z) :
  0 ≤ r < N →
  0 ≤ c < N →
  let lines := generateWinningLines N in
  let on k := ∃ l, js_nth lines k = Some l ∧ r * N + c ∈ l in
  (∀ l, l ∈ lines → NoDup l) ∧
  (∀ r', 0 ≤ r' < N → on r' ↔ r = r') ∧
  (∀ c', 0 ≤ c' < N → on (N + c') ↔ c = c') ∧
  (on (2 * N) ↔ r = c) ∧
  (on (2 * N + 1) ↔ r + c = N - 1).
Proof.
  intros Hr Hc. cbv zeta. rewrite generateWinningLines_spec.
  split; [apply specLines_NoDup|]. split; [|split; [|split]].
  - intros r' Hr'. rewrite specLines_row by done. split.
    + intros (l & [= <-] & Hin). unfold rowLine in Hin.
      apply list_elem_of_fmap in Hin as (c' & Heq & Hc'%range_elem).
      by destruct (cell_inj N r c r' c' Hc Hc' Heq).
    + intros <-. eexists. split; [done|]. unfold rowLine.
      apply list_elem_of_fmap. exists c. split; [done|]. by apply range_elem.
  - intros c' Hc'. rewrite specLines_col by done. split.
    + intros (l & [= <-] & Hin). unfold colLine in Hin.
      apply list_elem_of_fmap in Hin as (r' & Heq & Hr'%range_elem).
      by destruct (cell_inj N r c r' c' Hc Hc' Heq).
    + intros <-. eexists. split; [done|]. unfold colLine.
      apply list_elem_of_fmap. exists r. split; [done|]. by apply range_elem.
  - rewrite specLines_main by lia. split.
    + intros (l & [= <-] & Hin). unfold mainDiagonal in Hin.
      apply list_elem_of_fmap in Hin as (i & Heq & Hi%range_elem).
      destruct (cell_inj N r c i i Hc Hi Heq). congruence.
    + intros <-. eexists. split; [done|]. unfold mainDiagonal.
      apply list_elem_of_fmap. exists r. split; [done|]. by apply range_elem.
  - rewrite specLines_anti by lia. split.
    + intros (l & [= <-] & Hin). unfold antiDiagonal in Hin.
      apply list_elem_of_fmap in Hin as (i & Heq & Hi%range_elem).
      destruct (cell_inj N r c i (N - 1 - i) Hc) as [-> ->]; [lia|done|lia].
    + intros Hsum. eexists. split; [done|]. unfold antiDiagonal.
      apply list_elem_of_fmap. exists r. split; [|by apply range_elem].
      f_equal. lia.
Qed.

Lemma generateWinningLines_geometry_witness :
  let lines := generateWinningLines 3 in
  let on k := ∃ l, js_nth lines k = Some l ∧ 1 * 3 + 1 ∈ l in
  (∀ l, l ∈ lines → NoDup l) ∧
  (∀ r', 0 ≤ r' < 3 → on r' ↔ 1 = r') ∧
  (∀ c', 0 ≤ c' < 3 → on (3 + c') ↔ 1 = c') ∧
  (on (2 * 3) ↔ 1 = 1) ∧
  (on (2 * 3 + 1) ↔ 1 + 1 = 3 - 1).
Proof. apply (generateWinningLines_geometry 3 1 1); lia. Defined.

(** ** The squares of [Board] *)

Lemma range_app a b :
  0 ≤ a → 0 ≤ b → range (a + b) = range a ++ ((λ k, a + k) <$> range b).
Proof.
  intros Ha Hb. unfold range.
  replace (Z.to_nat (a + b)) with (Z.to_nat a + Z.to_nat b)%nat by lia.
  rewrite seq_app, fmap_app. f_equal. simpl.
  replace (seq (Z.to_nat a) (Z.to_nat b))
    with (Nat.add (Z.to_nat a) <$> seq 0 (Z.to_nat b))
    by (rewrite fmap_add_seq; f_equal; lia).
  rewrite <- !list_fmap_compose.
  apply list_fmap_ext. intros _ k _. simpl. lia.
Qed.

(** Row after row, the cells of the grid are the indices [0 .. N * N - 1]
    in order. *)
Lemma concat_rows N (m : nat) :
  0 ≤ N →
  concat ((λ r, (λ c, r * N + c) <$> range N) <$> range (Z.of_nat m)) =
    range (Z.of_nat m * N).
Proof.
  intros HN. induction m as [|m IH]; [done|].
  replace (Z.of_nat (S m)) with (Z.of_nat m + 1) by lia.
  rewrite (range_app (Z.of_nat m) 1) by lia.
  rewrite fmap_app, concat_app, IH. simpl. rewrite app_nil_r.
  replace ((Z.of_nat m + 1) * N) with (Z.of_nat m * N + N) by lia.
  rewrite (range_app (Z.of_nat m * N) N) by nia. f_equal.
  apply list_fmap_ext. intros _ c _. lia.
Qed.

(** The loops of [Board] in closed form. *)
Lemma Board_rows N squares w :
  Board N squares w =
    (λ r, (λ c, squareAt squares w (r * N + c)) <$> range N) <$> range N.
Proof.
  unfold Board. cbv zeta.
  rewrite (for_range_push
             (λ r, for_range N
                     (λ cells c, push cells (squareAt squares w (r * N + c)))
                     [])).
  simpl. apply list_fmap_ext. intros _ r _.
  by rewrite (for_range_push (λ c, squareAt squares w (r * N + c))).
Qed.

Lemma concat_fmap_rows {A B} (f : A → B) (g : Z → list A) (l : list Z) :
  concat ((λ r, f <$> g r) <$> l) = f <$> concat (g <$> l).
Proof.
  induction l as [|r l IH]; [done|].
  by rewrite !fmap_cons, !concat_cons, fmap_app, IH.
Qed.

Lemma Board_concat N squares w :
  0 ≤ N →
  concat (Board N squares w) = squareAt squares w <$> range (N * N).
Proof.
  intros HN. rewrite Board_rows.
  pose proof (concat_rows N (Z.to_nat N) HN) as Hrows.
  rewrite Z2Nat.id in Hrows by done. rewrite <- Hrows.
  rewrite <- concat_fmap_rows. f_equal.
  apply list_fmap_ext. intros _ r _. by rewrite <- list_fmap_compose.
Qed.

(** X10: [Board] draws [N] rows of [N] squares; read row after row, the
    indices that the squares pass to the click handler are
    [0, 1, ..., N * N - 1], each once and in order, and the square that
    passes [idx] has key [idx] and shows [squares[idx]]. *)
Theorem Board_squares (N : Z) (squares : jsarray) (w : option winnerInfo) :
  0 ≤ N →
  Z.of_nat (length (Board N squares w)) = N ∧
  (∀ row, row ∈ Board N squares w → Z.of_nat (length row) = N) ∧
  sq_click <$> concat (Board N squares w) = range (N * N) ∧
  ∀ p, p ∈ concat (Board N squares w) →
       sq_key p = sq_click p ∧ sq_value p = arr_get squares (sq_click p).
Proof.
  intros HN. split; [|split; [|split]].
  - rewrite Board_rows, length_fmap, range_length. lia.
  - rewrite Board_rows. intros row (r & -> & _)%list_elem_of_fmap.
    rewrite length_fmap, range_length. lia.
  - rewrite Board_concat by done. rewrite <- list_fmap_compose.
    rewrite <- (list_fmap_id (range (N * N))) at 2.
    by apply list_fmap_ext.
  - rewrite Board_concat by done. by intros p (idx & -> & _)%list_elem_of_fmap.
Qed.

Lemma Board_squares_witness :
  Z.of_nat (length (Board 3 (board_of (replicate 9 null)) None)) = 3 ∧
  (∀ row, row ∈ Board 3 (board_of (replicate 9 null)) None →
          Z.of_nat (length row) = 3) ∧
  sq_click <$> concat (Board 3 (board_of (replicate 9 null)) None)
    = range (3 * 3) ∧
  ∀ p, p ∈ concat (Board 3 (board_of (replicate 9 null)) None) →
       sq_key p = sq_click p ∧
       sq_value p = arr_get (board_of (replicate 9 null)) (sq_click p).
Proof. apply (Board_squares 3). lia. Defined.

(** The number of indices below [M] that are on a line without
    repetition that stays below [M]. *)
Lemma count_line (l : list Z) M :
  NoDup l → (∀ idx, idx ∈ l → 0 ≤ idx < M) →
  length (List.filter (λ idx, bool_decide (idx ∈ l)) (range M)) = length l.
Proof.
  intros Hnd. induction Hnd as [|x l Hx Hnd IH]; intros Hin.
  - by induction (range M).
  - simpl. rewrite <- IH by (intros idx Hidx; apply Hin; by right).
    apply (filter_flip_length _ _ _ x).
    + apply range_NoDup.
    + apply range_elem, Hin. by left.
    + by apply bool_decide_eq_false.
    + apply bool_decide_eq_true. by left.
    + intros j Hj. apply bool_decide_ext. rewrite elem_of_cons.
      split; [by intros [?|?]|by right].
Qed.

(** X11: the highlighting of [Board] with the result of
    [calculateWinner].  With a winner, the squares marked as winning are
    exactly those of the cells of the reported line, there are exactly [N]
    of them, and each of them shows the winner's mark and has the winner's
    letter colour; with no winner, no square is marked. *)
Theorem Board_highlight (N : Z) (squares : jsarray) :
  0 ≤ N →
  let winnerInfo := calculateWinner (Some squares) N in
  let shown := concat (Board N squares winnerInfo) in
  match winnerInfo with
  | Some w =>
      (∀ p, p ∈ shown → sq_isWinning p = true ↔ sq_click p ∈ line w) ∧
      (∀ p, p ∈ shown → sq_isWinning p = true →
            sq_value p = Some (filled (player w)) ∧ sq_winnerLetter p = true) ∧
      Z.of_nat (length (List.filter sq_isWinning shown)) = N
  | None =>
      ∀ p, p ∈ shown → sq_isWinning p = false ∧ sq_winnerLetter p = false
  end.
Proof.
  intros HN. cbv zeta. rewrite Board_concat by done.
  pose proof (scanLines_first squares (generateWinningLines N)) as Hfirst.
  fold (calculateWinner (Some squares) N) in Hfirst.
  destruct (calculateWinner (Some squares) N) as [w|].
  - destruct Hfirst as (before & after & Hlines & (first & Hhead & Hp & Hall) & _).
    assert (line w ∈ specLines N) as Hin.
    { rewrite <- generateWinningLines_spec, Hlines.
      apply elem_of_app. right. by left. }
    split; [|split].
    + intros p (idx & -> & _)%list_elem_of_fmap. simpl.
      apply bool_decide_eq_true.
    + intros p (idx & -> & _)%list_elem_of_fmap. simpl.
      intros Hidx%bool_decide_eq_true.
      rewrite (Hall idx Hidx), Hp. split; [done|]. by apply bool_decide_eq_true.
    + rewrite filter_map_swap, length_map. simpl.
      rewrite count_line.
      * rewrite (specLines_line_length N (line w) Hin). lia.
      * by apply (specLines_NoDup N).
      * intros idx Hidx. by apply (specLines_index_bound N (line w)).
  - intros p (idx & -> & _)%list_elem_of_fmap. simpl. by split.
Qed.

Lemma Board_highlight_witness :
  let squares := board_of [filled X; filled X; filled X; null;
                           filled O; filled O; null; null; null] in
  let winnerInfo := calculateWinner (Some squares) 3 in
  let shown := concat (Board 3 squares winnerInfo) in
  match winnerInfo with
  | Some w =>
      (∀ p, p ∈ shown → sq_isWinning p = true ↔ sq_click p ∈ line w) ∧
      (∀ p, p ∈ shown → sq_isWinning p = true →
            sq_value p = Some (filled (player w)) ∧ sq_winnerLetter p = true) ∧
      Z.of_nat (length (List.filter sq_isWinning shown)) = 3
  | None =>
      ∀ p, p ∈ shown → sq_isWinning p = false ∧ sq_winnerLetter p = false
  end.
Proof.
  apply (Board_highlight 3
           (board_of [filled X; filled X; filled X; null;
                      filled O; filled O; null; null; null])).
  lia.
Defined.

(** ** The ends of the winner line *)

Lemma winnerLineCells_fmap (f : Z → Z) N :
  1 ≤ N →
  winnerLineCells N (f <$> range N) =
    Some (f 0 `div` N, Z.rem (f 0) N,
          f (N - 1) `div` N, Z.rem (f (N - 1)) N).
Proof.
  intros HN. unfold winnerLineCells.
  rewrite length_fmap, range_length, Z2Nat.id by lia.
  rewrite !js_nth_fmap, !range_lookup by lia. done.
Qed.

Lemma winnerLineCells_nonempty N (l : list Z) first :
  head l = Some first → is_Some (winnerLineCells N l).
Proof.
  intros Hhead. unfold winnerLineCells.
  destruct l as [|x l]; [done|]. simpl.
  destruct (js_nth_elem (x :: l) (Z.of_nat (length (x :: l)) - 1))
    as (last & Hlast & _); [simpl; lia|].
  simpl in Hlast. rewrite Hlast. by eexists.
Qed.

(** X12: the cells between which [WinnerLine] draws, as (row, column)
    pairs, for each line of [generateWinningLines] on a grid of size
    [N >= 1]: row [r] goes from [(r, 0)] to [(r, N - 1)], column [c] from
    [(0, c)] to [(N - 1, c)], the main diagonal from [(0, 0)] to
    [(N - 1, N - 1)] and the anti-diagonal from [(0, N - 1)] to
    [(N - 1, 0)].  For the line of any reported winner the four numbers
    are defined. *)
Theorem winnerLineCells_ends (N : Z) :
  1 ≤ N →
  let lines := generateWinningLines N in
  (∀ r l, 0 ≤ r < N → js_nth lines r = Some l →
          winnerLineCells N l = Some (r, 0, r, N - 1)) ∧
  (∀ c l, 0 ≤ c < N → js_nth lines (N + c) = Some l →
          winnerLineCells N l = Some (0, c, N - 1, c)) ∧
  (∀ l, js_nth lines (2 * N) = Some l →
        winnerLineCells N l = Some (0, 0, N - 1, N - 1)) ∧
  (∀ l, js_nth lines (2 * N + 1) = Some l →
        winnerLineCells N l = Some (0, N - 1, N - 1, 0)) ∧
  (∀ squares w, calculateWinner (Some squares) N = Some w →
                is_Some (winnerLineCells N (line w))).
Proof.
  intros HN. cbv zeta. rewrite generateWinningLines_spec.
  split; [|split; [|split; [|split]]].
  - intros r l Hr. rewrite specLines_row by done. intros [= <-].
    unfold rowLine. rewrite (winnerLineCells_fmap (λ c, r * N + c)) by done.
    destruct (cell_div_rem N r 0) as [-> ->]; [lia..|].
    destruct (cell_div_rem N r (N - 1)) as [-> ->]; [lia..|]. done.
  - intros c l Hc. rewrite specLines_col by done. intros [= <-].
    unfold colLine. rewrite (winnerLineCells_fmap (λ r, r * N + c)) by done.
    destruct (cell_div_rem N 0 c) as [-> ->]; [lia..|].
    destruct (cell_div_rem N (N - 1) c) as [-> ->]; [lia..|]. done.
  - intros l. rewrite specLines_main by lia. intros [= <-].
    unfold mainDiagonal. rewrite (winnerLineCells_fmap (λ i, i * N + i)) by done.
    destruct (cell_div_rem N 0 0) as [-> ->]; [lia..|].
    destruct (cell_div_rem N (N - 1) (N - 1)) as [-> ->]; [lia..|]. done.
  - intros l. rewrite specLines_anti by lia. intros [= <-].
    unfold antiDiagonal.
    rewrite (winnerLineCells_fmap (λ i, i * N + (N - 1 - i))) by done.
    destruct (cell_div_rem N 0 (N - 1 - 0)) as [-> ->]; [lia..|].
    destruct (cell_div_rem N (N - 1) (N - 1 - (N - 1))) as [-> ->]; [lia..|].
    do 4 f_equal; lia.
  - intros squares w Hw.
    pose proof (scanLines_first squares (specLines N)) as Hfirst.
    rewrite <- generateWinningLines_spec in Hfirst.
    fold (calculateWinner (Some squares) N) in Hfirst. rewrite Hw in Hfirst.
    destruct Hfirst as (_ & _ & _ & (first & Hhead & _) & _).
    by apply (winnerLineCells_nonempty N (line w) first).
Qed.

Lemma winnerLineCells_ends_witness :
  let lines := generateWinningLines 3 in
  (∀ r l, 0 ≤ r < 3 → js_nth lines r = Some l →
          winnerLineCells 3 l = Some (r, 0, r, 3 - 1)) ∧
  (∀ c l, 0 ≤ c < 3 → js_nth lines (3 + c) = Some l →
          winnerLineCells 3 l = Some (0, c, 3 - 1, c)) ∧
  (∀ l, js_nth lines (2 * 3) = Some l →
        winnerLineCells 3 l = Some (0, 0, 3 - 1, 3 - 1)) ∧
  (∀ l, js_nth lines (2 * 3 + 1) = Some l →
        winnerLineCells 3 l = Some (0, 3 - 1, 3 - 1, 0)) ∧
  (∀ squares w, calculateWinner (Some squares) 3 = Some w →
                is_Some (winnerLineCells 3 (line w))).
Proof. apply (winnerLineCells_ends 3). lia. Defined.

(** ** The buttons of the move history *)

Lemma Controls_seq h :
  Controls h =
    (λ move : nat,
       {| btn_label :=
            if decide (move = 0%nat) then "Start" else "#" +:+ pretty move;
          btn_move := Z.of_nat move |}) <$> seq 0 (length h).
Proof. unfold Controls. apply imap_seq_0. Qed.

(** X13: [Controls] shows one button per snapshot of the history; in
    order, they pass the moves [0, 1, ..., length - 1] to [jumpTo], so that
    each one is an index of the history; the first one is labelled
    ["Start"], and no two buttons have the same label. *)
Theorem Controls_buttons (history : list jsarray) :
  length (Controls history) = length history ∧
  btn_move <$> Controls history = range (Z.of_nat (length history)) ∧
  (∀ b, b ∈ Controls history →
        0 ≤ btn_move b < Z.of_nat (length history)) ∧
  (history ≠ [] → btn_label <$> head (Controls history) = Some "Start") ∧
  NoDup (btn_label <$> Controls history).
Proof.
  rewrite Controls_seq. split; [|split; [|split; [|split]]].
  - by rewrite length_fmap, length_seq.
  - rewrite <- list_fmap_compose. unfold range. rewrite Nat2Z.id.
    by apply list_fmap_ext.
  - intros b (move & -> & Hmove%elem_of_seq)%list_elem_of_fmap. simpl. lia.
  - by destruct history.
  - rewrite <- list_fmap_compose. apply NoDup_fmap_2_strong; [|apply NoDup_seq].
    intros x y _ _. simpl.
    destruct (decide (x = 0%nat)) as [->|Hx], (decide (y = 0%nat)) as [->|Hy];
      try done.
    intros [= Heq]. by apply (inj pretty).
Qed.

(** ** A new game *)

Lemma empty_board_no_winner b N :
  (∀ k, arr_get b k = Some null ∨ arr_get b k = None) →
  calculateWinner (Some b) N = None.
Proof.
  intros Hempty. apply calculateWinner_none.
  intros (l & p & _ & first & _ & Hfirst & _).
  destruct (Hempty first); congruence.
Qed.

(** X14: after [handleStart] or [restartGame] on a grid size [N >= 1], the
    status line is "Next: X", and a click on any square of the grid is
    accepted: it records a second snapshot with X in that cell and makes
    it the active board.  (On a grid of size 0 the board has no cell and
    the status is the draw message.) *)
Theorem fresh_game (s s' : state) :
  handleStart s = Ok s' ∨ restartGame s = Ok s' →
  (boardSize s = 0 → status s' = Ok "Draw!") ∧
  (boardSize s ≠ 0 →
   status s' = Ok "Next: X" ∧
   ∀ i, 0 ≤ i < boardSize s * boardSize s →
        ∃ s'' b, play i s' = Ok s'' ∧
                 length (history s'') = 2%nat ∧
                 currentMove s'' = 1 ∧
                 currentSquares s'' = Some b ∧
                 arr_get b i = Some (filled X) ∧
                 ∀ j, j ≠ i → 0 ≤ j < boardSize s * boardSize s →
                      arr_get b j = Some null).
Proof.
  intros Hfresh.
  destruct (fresh_history s s' Hfresh) as (b & Hh & Hm & Hlen & Hget).
  destruct (fresh_frame s s' Hfresh) as (_ & _ & HN & _).
  assert (currentSquares s' = Some b) as Hsq
    by (unfold currentSquares; by rewrite Hh, Hm).
  assert (calculateWinner (Some b) (boardSize s') = None) as Hnone.
  { apply empty_board_no_winner. intros k. rewrite Hget. case_decide; auto. }
  rewrite (status_text s' b Hsq), Hnone. unfold statusText.
  split.
  - intros H0. assert (arr_every (λ val, bool_decide (val ≠ null)) b = true)
      as ->; [|done].
    apply arr_every_true. intros k Hk. rewrite Hlen, H0 in Hk. lia.
  - intros HN0.
    assert (arr_every (λ val, bool_decide (val ≠ null)) b = false) as ->.
    { apply not_true_is_false. intros Hall.
      pose proof (proj1 (arr_every_true _ _) Hall 0) as H0.
      rewrite Hlen, Hget, decide_True in H0 by nia.
      specialize (H0 ltac:(nia) null eq_refl).
      by apply bool_decide_eq_true in H0. }
    rewrite xIsNext_even, Hm. split; [done|].
    intros i Hi.
    assert (isEmpty b i) as Hfree
      by (unfold isEmpty; by rewrite Hget, decide_True).
    destruct (play_move s' i b Hsq Hnone Hfree) as (Hplay & Hhist & Hmove & Hnext).
    eexists _, _. split; [exact Hplay|]. split; [|split; [|split; [|split]]].
    + rewrite Hhist, Hh, Hm. done.
    + rewrite Hmove, Hm. done.
    + apply handlePlay_active.
    + by rewrite Hnext, decide_True, Hm.
    + intros j Hj Hrange.
      rewrite Hnext, decide_False, Hlen, decide_True, Hget, decide_True by done.
      done.
Qed.

Lemma fresh_game_witness :
  (boardSize menu3 = 0 → status started3 = Ok "Draw!") ∧
  (boardSize menu3 ≠ 0 →
   status started3 = Ok "Next: X" ∧
   ∀ i, 0 ≤ i < boardSize menu3 * boardSize menu3 →
        ∃ s'' b, play i started3 = Ok s'' ∧
                 length (history s'') = 2%nat ∧
                 currentMove s'' = 1 ∧
                 currentSquares s'' = Some b ∧
                 arr_get b i = Some (filled X) ∧
                 ∀ j, j ≠ i → 0 ≤ j < boardSize menu3 * boardSize menu3 →
                      arr_get b j = Some null).
Proof.
  apply (fresh_game menu3 started3). left. vm_compute. reflexivity.
Defined.

(** ** Marks of each player, and when a game can be won *)

Lemma filter_length_mono {A} (f g : A → bool) (l : list A) :
  (∀ x, x ∈ l → f x = true → g x = true) →
  (length (List.filter f l) ≤ length (List.filter g l))%nat.
Proof.
  induction l as [|x l IH]; intros Hfg; [done|]. simpl.
  assert (length (List.filter f l) ≤ length (List.filter g l))%nat as Hle
    by (apply IH; intros y Hy; apply Hfg; by right).
  destruct (f x) eqn:Hfx.
  - rewrite (Hfg x) by (done || by left). simpl. lia.
  - destruct (g x); simpl; lia.
Qed.

Lemma filter_false_length {A} (l : list A) :
  length (List.filter (λ _, false) l) = 0%nat.
Proof. by induction l. Qed.

Lemma marksOf_oneMove N k b b' p :
  board_wf N b → board_wf N b' → oneMove N k b b' →
  length (marksOf p b') =
    if decide (p = if Nat.even k then X else O)
    then S (length (marksOf p b)) else length (marksOf p b).
Proof.
  intros [Hlen _] [Hlen' _] (i & Hi & Hnull & Hmark & Hsame).
  unfold marksOf. rewrite Hlen, Hlen'. case_decide as Hp.
  - apply (filter_flip_length _ _ _ i).
    + apply range_NoDup.
    + by apply range_elem.
    + rewrite Hnull. by apply bool_decide_eq_false.
    + rewrite Hmark, Hp. by apply bool_decide_eq_true.
    + intros j Hj. by rewrite Hsame.
  - f_equal. apply filter_ext_elem. intros j _.
    destruct (decide (j = i)) as [->|Hj]; [|by rewrite Hsame].
    rewrite Hnull, Hmark.
    rewrite !bool_decide_eq_false_2; [done..|]. congruence.
Qed.

Lemma history_chain_marksOf N h :
  history_chain N h → (∀ b, b ∈ h → board_wf N b) →
  ∀ (k : nat) b, h !! k = Some b →
    Z.of_nat (length (marksOf X b)) = (Z.of_nat k + 1) `div` 2 ∧
    Z.of_nat (length (marksOf O b)) = Z.of_nat k `div` 2.
Proof.
  intros [(b0 & Hb0 & Hnull) Hchain] Hwf k.
  induction k as [|k IH]; intros b Hk.
  - assert (b = b0) as -> by congruence.
    destruct (Hwf b0) as [Hlen _]; [by eapply list_elem_of_lookup_2|].
    assert (∀ p, marksOf p b0 = List.filter (λ _, false) (range (N * N)))
      as Hnone.
    { intros p. unfold marksOf. rewrite Hlen. apply filter_ext_elem.
      intros x Hx%range_elem. rewrite Hnull by done.
      by apply bool_decide_eq_false. }
    rewrite !Hnone, filter_false_length. by vm_compute.
  - destruct (lookup_lt_is_Some_2 h k) as [b1 Hb1].
    { apply lookup_lt_Some in Hk. lia. }
    destruct (IH b1 Hb1) as [HX HO].
    assert (board_wf N b1 ∧ board_wf N b) as [Hwf1 Hwfb]
      by (split; apply Hwf; by eapply list_elem_of_lookup_2).
    pose proof (Hchain k b1 b Hb1 Hk) as Hmove.
    rewrite (marksOf_oneMove N k b1 b X), (marksOf_oneMove N k b1 b O) by done.
    destruct (Nat.even k) eqn:Heven.
    + apply Nat.even_spec in Heven as [m ->].
      rewrite decide_True, decide_False by done.
      revert HX HO. Z.div_mod_to_equations. lia.
    + assert (Nat.odd k = true) as [m ->]%Nat.odd_spec
        by (by rewrite <- Nat.negb_even, Heven).
      rewrite decide_False, decide_True by done.
      revert HX HO. Z.div_mod_to_equations. lia.
Qed.

(** A complete line gives its player at least [N] marks. *)
Lemma completeLine_marksOf N b l p :
  board_wf N b → l ∈ specLines N → completeLine b l p →
  (Z.to_nat N ≤ length (marksOf p b))%nat.
Proof.
  intros [Hlen _] Hl (first & Hhead & Hfirst & Hall).
  rewrite <- (specLines_line_length N l Hl).
  rewrite <- (count_line l (N * N)).
  - unfold marksOf. rewrite Hlen. apply filter_length_mono.
    intros idx _ Hidx%bool_decide_eq_true. apply bool_decide_eq_true.
    by rewrite (Hall idx Hidx).
  - by apply (specLines_NoDup N).
  - intros idx Hidx. by apply (specLines_index_bound N l).
Qed.

(** Through the page, no snapshot but the last one has a winner. *)
Lemma session_no_early_winner s :
  session s → screen s = game →
  ∀ (k : nat) b, history s !! k = Some b → (S k < length (history s))%nat →
                 calculateWinner (Some b) (boardSize s) = None.
Proof.
  induction 1 as [s Hinit|s e s' Hs IH Hoffered Hstep].
  - unfold initial in Hinit. simpl in Hinit. by injection Hinit as <-.
  - destruct Hstep as [s five Hmenu|s s' _ Hstart|s i s' Hgame Hplay
                      |s v move Hgame _|s v s' _ _ Hrestart].
    + simpl. congruence.
    + intros _ k b _. destruct (fresh_history s s') as (b0 & -> & _);
        [by left|]. simpl. lia.
    + intros _. destruct (decide (s' = s)) as [->|Hne']; [by apply IH|].
      destruct (play_changed s i s' Hplay Hne')
        as (sq & Hsq & Hnone & Hfree & ->).
      apply lookup_js_nth in Hsq as [Hsq Hpos].
      pose proof (lookup_lt_Some _ _ _ Hsq) as Hlt.
      change (boardSize (handlePlay _ s)) with (boardSize s).
      rewrite handlePlay_history by done.
      intros k b Hk Hlast.
      rewrite length_app, length_take in Hlast. simpl in Hlast.
      rewrite lookup_app_l, lookup_take_lt in Hk by (rewrite ?length_take; lia).
      destruct (decide (k = Z.to_nat (currentMove s))) as [->|Hk'].
      * by simplify_eq.
      * apply (IH Hgame k b Hk). lia.
    + simpl. apply IH.
    + intros _ k b _. destruct (fresh_history s s') as (b0 & -> & _);
        [by right|]. simpl. lia.
Qed.

(** X15: through the page, snapshot [k] of the history holds
    [(k + 1) / 2] marks of X and [k / 2] marks of O (rounded down), only
    the last snapshot of the history can have a winner, and a snapshot
    with a winner has at least [2N - 1] moves: on the 3 by 3 grid nobody
    wins before the fifth move. *)
Theorem session_turns (s : state) (k : nat) (b : jsarray) :
  session s →
  screen s = game →
  history s !! k = Some b →
  Z.of_nat (length (marksOf X b)) = (Z.of_nat k + 1) `div` 2 ∧
  Z.of_nat (length (marksOf O b)) = Z.of_nat k `div` 2 ∧
  (is_Some (calculateWinner (Some b) (boardSize s)) →
   S k = length (history s) ∧ 2 * boardSize s - 1 ≤ Z.of_nat k).
Proof.
  intros Hs Hgame Hk.
  pose proof (session_state_wf s Hs) as (Hsize & _ & Hwf).
  destruct (Hwf Hgame) as [_ Hboards].
  destruct (history_chain_marksOf _ _ (session_history_chain s Hs Hgame)
              Hboards k b Hk) as [HX HO].
  split; [done|]. split; [done|]. intros [w Hw]. split.
  - pose proof (lookup_lt_Some _ _ _ Hk) as Hlt.
    destruct (decide (S k < length (history s))%nat) as [Hearly|]; [|lia].
    pose proof (session_no_early_winner s Hs Hgame k b Hk Hearly). congruence.
  - pose proof (scanLines_first b (specLines (boardSize s))) as Hfirst.
    rewrite <- generateWinningLines_spec in Hfirst.
    fold (calculateWinner (Some b) (boardSize s)) in Hfirst.
    rewrite Hw in Hfirst.
    destruct Hfirst as (before & after & Hlines & Hcomplete & _).
    assert (line w ∈ specLines (boardSize s)) as Hin.
    { rewrite <- generateWinningLines_spec, Hlines.
      apply elem_of_app. right. by left. }
    assert (board_wf (boardSize s) b) as Hb
      by (apply Hboards; by eapply list_elem_of_lookup_2).
    pose proof (completeLine_marksOf _ b (line w) (player w) Hb Hin Hcomplete)
      as Hcount.
    destruct (player w); revert HX HO Hcount; Z.div_mod_to_equations; lia.
Qed.

Lemma session_turns_witness :
  Z.of_nat (length (marksOf X (board_of [filled X; filled X; filled X; null;
                                         filled O; filled O; null; null; null])))
    = (Z.of_nat 5 + 1) `div` 2 ∧
  Z.of_nat (length (marksOf O (board_of [filled X; filled X; filled X; null;
                                         filled O; filled O; null; null; null])))
    = Z.of_nat 5 `div` 2 ∧
  (is_Some (calculateWinner
              (Some (board_of [filled X; filled X; filled X; null;
                               filled O; filled O; null; null; null]))
              (boardSize wonByX)) →
   6%nat = length (history wonByX) ∧ 2 * boardSize wonByX - 1 ≤ Z.of_nat 5).
Proof.
  apply (session_turns wonByX 5); [apply session_wonByX|reflexivity..].
Defined.
